(** * DHash: a shallow embedding of the ring arithmetic, the Merkle index,
      the local store, the dispersal codec and the placement loop.

    Keys are [boost::multiprecision::uint256_t] values, modelled as [Z] with
    the 256-bit wrap-around written out where the source adds or subtracts.
    [double]s are modelled by primitive IEEE-754 binary64 floats. *)

From Stdlib Require Import ZArith Lia List Bool Ascii String Floats Uint63 Permutation.
From stdpp Require Import gmap strings list.

Open Scope Z_scope.

(** ** Exceptions and results *)

(** What a call can end in besides returning: a thrown C++ exception, a
    failed [assert], or the dereference of a null pointer. *)
Inductive exn : Type :=
| runtime_error (what : string)
| out_of_range
| std_exception
| assertion_failed
| null_dereference.

Definition result (A : Type) : Type := (exn + A)%type.

Definition bind {A B : Type} (r : result A) (k : A -> result B) : result B :=
  match r with
  | inl e => inl e
  | inr a => k a
  end.

(** [for (int i = lo; i < hi; i++) body], threading the state [s]. *)
Definition for_range {S : Type} (lo hi : nat) (body : nat -> S -> S) (s : S) : S :=
  fold_left (fun s i => body i s) (seq lo (hi - lo)) s.

(** [for (int i = from; i >= 0; i--) body]. *)
Definition for_down {S : Type} (from_plus_one : nat) (body : nat -> S -> S) (s : S) : S :=
  fold_left (fun s i => body i s) (rev (seq 0 from_plus_one)) s.

(** ** key.cpp *)

Module Key.

(** [mp::uint256_t] arithmetic wraps at 2^256. *)
Definition uint256_mod : Z := 2 ^ 256.
Definition wrap256 (z : Z) : Z := z mod uint256_mod.

(** [mp::pow(mp::cpp_int(16), 32)] *)
Definition keys_in_ring : Z := 16 ^ 32.

(** [bool Key::InBetween(lower_bound, upper_bound, inclusive) const],
    the receiver's [value_] made explicit. *)
Definition InBetween (value_ lower_bound upper_bound : Z) (inclusive : bool)
  : bool :=
  if lower_bound =? upper_bound then
    if value_ =? upper_bound then true else false
  else
    let mod_lower_bound := lower_bound mod keys_in_ring in
    let mod_upper_bound := upper_bound mod keys_in_ring in
    let mod_value := value_ mod keys_in_ring in
    if lower_bound <? upper_bound then
      if inclusive
      then (mod_lower_bound <=? mod_value) && (mod_value <=? upper_bound)
      else (mod_lower_bound <? mod_value) && (mod_value <? upper_bound)
    else
      negb (if inclusive
            then (mod_upper_bound <? mod_value) && (mod_value <? mod_lower_bound)
            else (mod_upper_bound <=? mod_value) && (mod_value <=? mod_lower_bound)).

(** [Key operator + (const Key &key, int number)] and its siblings. *)
Definition add (key number : Z) : Z := wrap256 (key + wrap256 number).
Definition sub (key number : Z) : Z := wrap256 (key - wrap256 number).

(** [IntToHexStr]: [std::hex] output, lower case, no leading zeros.
    A 256-bit value has at most 64 digits, which bounds the recursion. *)
Definition hex_char (d : Z) : ascii :=
  match String.get (Z.to_nat d) "0123456789abcdef" with
  | Some c => c
  | None => "0"%char
  end.

Fixpoint hex_digits (fuel : nat) (v : Z) (acc : string) : string :=
  match fuel with
  | O => acc
  | S fuel' =>
      if v <? 16 then String (hex_char v) acc
      else hex_digits fuel' (v / 16) (String (hex_char (v mod 16)) acc)
  end.

Definition IntToHexStr (v : Z) : string := hex_digits 64 v EmptyString.

(** [unsigned long long Key::Size() const] *)
Definition Size (value_ : Z) : Z := Z.of_nat (String.length (IntToHexStr value_)).

(** [Key::Key(const std::string &key, true)]: the string is read as a
    hexadecimal literal, [uint256_t("0x" + key)], digit by digit into 256
    bits; a character that is not a hexadecimal digit makes the conversion
    throw. *)
Definition hex_value (c : ascii) : option Z :=
  let n := Z.of_nat (nat_of_ascii c) in
  if (48 <=? n) && (n <=? 57) then Some (n - 48)
  else if (97 <=? n) && (n <=? 102) then Some (n - 87)
  else if (65 <=? n) && (n <=? 70) then Some (n - 55)
  else None.

Fixpoint parse_hex (s : string) (acc : Z) : option Z :=
  match s with
  | EmptyString => Some acc
  | String c s' =>
      match hex_value c with
      | Some d => parse_hex s' (wrap256 (16 * acc + d))
      | None => None
      end
  end.

Definition of_hex (key : string) : option Z := parse_hex key 0.

(** Values that lie on the ring proper, below [keys_in_ring]. *)
Definition in_ring (v : Z) : Prop := 0 <= v < keys_in_ring.

(** The three-branch reading of the between test, as the design text words
    it: in the wrapping branch the strict complement for the exclusive test
    and the non-strict complement for the inclusive one. *)
Definition InBetween_spec (v lo hi : Z) (inclusive : bool) : bool :=
  if lo =? hi then v =? lo
  else if lo <? hi then
    if inclusive then (lo <=? v) && (v <=? hi) else (lo <? v) && (v <? hi)
  else
    negb (if inclusive then (hi <=? v) && (v <=? lo) else (hi <? v) && (v <? lo)).

(** "Exactly one of three tests holds." *)
Definition exactly_one (x y z : bool) : Prop :=
  (x = true /\ y = false /\ z = false) \/
  (x = false /\ y = true /\ z = false) \/
  (x = false /\ y = false /\ z = true).

End Key.

(** ** finger_table.cpp *)

Module FingerTable.

(** The members the range computation reads. [table_] itself is filled by
    the peer, one finger per index below [num_entries_]. *)
Record t := mk {
  num_entries_ : Z;
  starting_key_ : Z;
  keys_in_chord_ : Z
}.

(** [FingerTable::FingerTable(Key starting_key)]:
    "Num keys in chord is 16 ^ hex-id-length", "Num entries is binary ID
    length of key".  [starting_key.Size()] is read after the parameter was
    moved into [starting_key_]; the move leaves its fixed-width [value_],
    which is all that [Size] reads, as it was. *)
Definition FingerTable (starting_key : Z) : t :=
  {| num_entries_ := 4 * 32;
     starting_key_ := starting_key;
     keys_in_chord_ := 16 ^ Key.Size starting_key |}.

(** [std::pair<Key, Key> FingerTable::GetNthRange(int n)].  The sums are
    taken in unbounded [cpp_int]; the trailing [- 1] of the upper bound is
    taken after the reduction, in [uint256_t]. *)
Definition GetNthRange (ft : t) (n : Z) : Z * Z :=
  let starting_key := starting_key_ ft in
  let lb_increment_value := 2 ^ n in
  let lower_bound :=
    Key.wrap256 ((starting_key + lb_increment_value) mod keys_in_chord_ ft) in
  let ub_increment_value := 2 ^ (n + 1) in
  let upper_bound :=
    Key.wrap256
      (Key.wrap256 ((starting_key + ub_increment_value) mod keys_in_chord_ ft) - 1) in
  (lower_bound, upper_bound).

(** The range as the data model words it:
    [[starting_key + 2^i, starting_key + 2^(i+1) - 1]] modulo the fixed ring
    size 16^32. *)
Definition GetNthRange_spec (starting_key i : Z) : Z * Z :=
  ((starting_key + 2 ^ i) mod Key.keys_in_ring,
   (starting_key + 2 ^ (i + 1) - 1) mod Key.keys_in_ring).

End FingerTable.

(** ** merkle_node.h, merkle_node.cpp *)

Module CSMerkle.

(** [KeyDist]: the value of [floor(log2(x))] for a non-negative integer [x];
    [None] stands for the negative infinity that [log2(0)] yields. *)
Definition KeyDist := option Z.

Definition dist_eqb (a b : KeyDist) : bool :=
  match a, b with
  | None, None => true
  | Some x, Some y => x =? y
  | _, _ => false
  end.

Definition dist_ltb (a b : KeyDist) : bool :=
  match a, b with
  | None, None => false
  | None, Some _ => true
  | Some _, None => false
  | Some x, Some y => x <? y
  end.

(** [static KeyDist Distance(const Key &key1, const Key &key2)] *)
Definition Distance (key1 key2 : Z) : KeyDist :=
  let xor_keys := Z.lxor key1 key2 in
  if xor_keys =? 0 then None else Some (Z.log2 xor_keys).

(** A node reachable from a root: a leaf carries a key as its hash, an
    internal node two children and the hash of their hashes. *)
Inductive CSMerkleNode : Type :=
| Leaf (hash_ : Z)
| Internal (left_ right_ : CSMerkleNode) (hash_ : Z).

Definition hash_of (n : CSMerkleNode) : Z :=
  match n with
  | Leaf h => h
  | Internal _ _ h => h
  end.

Definition IsLeaf (n : CSMerkleNode) : bool :=
  match n with
  | Leaf _ => true
  | Internal _ _ _ => false
  end.

Definition left_of (n : CSMerkleNode) : option CSMerkleNode :=
  match n with
  | Leaf _ => None
  | Internal l _ _ => Some l
  end.

Definition right_of (n : CSMerkleNode) : option CSMerkleNode :=
  match n with
  | Leaf _ => None
  | Internal _ r _ => Some r
  end.

(** The object the store holds: [root_] points at the tree, and [left_],
    [right_] and [hash_] mirror the root's fields after every update. *)
Record Index := mkIndex {
  left_ : option CSMerkleNode;
  right_ : option CSMerkleNode;
  root_ : option CSMerkleNode;
  hash_ : Z
}.

(** [CSMerkleNode(nullptr, nullptr)]: no root, hash [Key("0", true)]. *)
Definition empty : Index :=
  {| left_ := None; right_ := None; root_ := None; hash_ := 0 |}.

(** The shape of a tree: its leaves and how they are grouped, without the
    hashes of the internal nodes. *)
Inductive Shape : Type :=
| SLeaf (key : Z)
| SNode (l r : Shape).

Fixpoint shape (n : CSMerkleNode) : Shape :=
  match n with
  | Leaf k => SLeaf k
  | Internal l r _ => SNode (shape l) (shape r)
  end.

Definition index_shape (this : Index) : option Shape :=
  option_map shape (root_ this).

Fixpoint leaves (n : CSMerkleNode) : list Z :=
  match n with
  | Leaf k => [k]
  | Internal l r _ => leaves l ++ leaves r
  end.

(** [bool CSMerkleNode::Contains(CSMerkleNode *root, const Key &key) const] *)
Fixpoint Contains_node (root : CSMerkleNode) (key : Z) : bool :=
  match root with
  | Leaf h => h =? key
  | Internal l r _ =>
      if IsLeaf l && (hash_of l =? key) then true
      else if IsLeaf r && (hash_of r =? key) then true
      else
        let l_dist := Distance key (hash_of l) in
        let r_dist := Distance key (hash_of r) in
        if dist_ltb l_dist r_dist then Contains_node l key
        else if dist_ltb r_dist l_dist then Contains_node r key
        else false
  end.

(** [bool CSMerkleNode::Contains(const Key &key) const] *)
Definition Contains (this : Index) (key : Z) : bool :=
  match root_ this with
  | Some root => Contains_node root key
  | None => false
  end.

Section Hashing.

(** [static Key ConcatHash(const Key &key1, const Key &key2)]: the SHA-1
    name hash of the two hexadecimal strings put end to end.  The digest is
    left abstract; every result below holds whatever it computes. *)
Variable ConcatHash : Z -> Z -> Z.

(** [CSMerkleNode::CSMerkleNode(CSMerkleNode *left, CSMerkleNode *right)] *)
Definition mkInternal (left right : CSMerkleNode) : CSMerkleNode :=
  Internal left right (ConcatHash (hash_of left) (hash_of right)).

(** [CSMerkleNode *CSMerkleNode::InsertLeaf(CSMerkleNode *leaf, const Key &key)] *)
Definition InsertLeaf (leaf : CSMerkleNode) (key : Z) : CSMerkleNode :=
  let new_leaf := Leaf key in
  if key <? hash_of leaf then mkInternal new_leaf leaf
  else if key >? hash_of leaf then mkInternal leaf new_leaf
  else leaf.

(** [CSMerkleNode *CSMerkleNode::Insert(CSMerkleNode *root, const Key &key)].
    A member function: on equal distances it reads [left_] and [right_] of
    the object it was called on ([this]), not of [root].  [None] is the
    dereference of a null [left_] or [right_]. *)
Fixpoint Insert_node (this : Index) (root : CSMerkleNode) (key : Z)
  : option CSMerkleNode :=
  match root with
  | Leaf _ => Some (InsertLeaf root key)
  | Internal l r _ =>
      let l_dist := Distance key (hash_of l) in
      let r_dist := Distance key (hash_of r) in
      if dist_eqb l_dist r_dist then
        let new_node := Leaf key in
        match left_ this, right_ this with
        | Some tl, Some tr =>
            let min_key :=
              if hash_of tl <? hash_of tr then hash_of tl else hash_of tr in
            if key <? min_key then Some (mkInternal new_node root)
            else Some (mkInternal root new_node)
        | _, _ => None
        end
      else if dist_ltb l_dist r_dist then
        match Insert_node this l key with
        | Some l' => Some (mkInternal l' r)
        | None => None
        end
      else
        match Insert_node this r key with
        | Some r' => Some (mkInternal l r')
        | None => None
        end
  end.

Definition with_root (root : CSMerkleNode) : Index :=
  {| left_ := left_of root; right_ := right_of root;
     root_ := Some root; hash_ := hash_of root |}.

(** [void CSMerkleNode::Insert(const Key &key)] *)
Definition Insert (this : Index) (key : Z) : option Index :=
  match root_ this with
  | Some root =>
      match Insert_node this root key with
      | Some root' => Some (with_root root')
      | None => None
      end
  | None => Some (with_root (Leaf key))
  end.

(** Inserting the keys of a list one by one, first to last. *)
Fixpoint insert_all (this : Index) (keys : list Z) : option Index :=
  match keys with
  | [] => Some this
  | key :: rest =>
      match Insert this key with
      | Some this' => insert_all this' rest
      | None => None
      end
  end.

End Hashing.

Section Deleting.

Variable ConcatHash : Z -> Z -> Z.

(** [CSMerkleNode *CSMerkleNode::Delete(CSMerkleNode *root, const Key &key)];
    [None] is the [nullptr] returned for a leaf that holds the key.  In the
    two recursive branches the child is not such a leaf (that case returns
    the sibling just above), so the call on it returns a node. *)
Fixpoint Delete_node (root : CSMerkleNode) (key : Z) : option CSMerkleNode :=
  match root with
  | Leaf h => if h =? key then None else Some root
  | Internal l r _ =>
      if IsLeaf l && (hash_of l =? key) then Some r
      else if IsLeaf r && (hash_of r =? key) then Some l
      else
        let l_dist := Distance key (hash_of l) in
        let r_dist := Distance key (hash_of r) in
        if dist_eqb l_dist r_dist then Some root
        else if dist_ltb l_dist r_dist then
          match Delete_node l key with
          | Some l' => Some (mkInternal ConcatHash l' r)
          | None => None
          end
        else
          match Delete_node r key with
          | Some r' => Some (mkInternal ConcatHash l r')
          | None => None
          end
  end.

(** [void CSMerkleNode::Delete(const Key &key)]: after the private delete
    the fields of the new root are read, whether or not there is one. *)
Definition Delete (this : Index) (key : Z) : result Index :=
  match root_ this with
  | Some root =>
      match Delete_node root key with
      | Some root' => inr (with_root root')
      | None => inl null_dereference
      end
  | None => inl (runtime_error "No root to delete from.")
  end.

End Deleting.

(** The keys an index holds: the leaves of its tree. *)
Definition keys (this : Index) : list Z :=
  match root_ this with
  | Some root => leaves root
  | None => []
  end.

(** The states an index goes through: the fresh one, or one that mirrors
    its root. *)
Definition wf (this : Index) : Prop :=
  this = empty \/ exists root, this = with_root root.

Section Integrity.

Variable ConcatHash : Z -> Z -> Z.

(** Every internal node carries the hash of its children's hashes. *)
Fixpoint hashed (n : CSMerkleNode) : Prop :=
  match n with
  | Leaf _ => True
  | Internal l r h =>
      h = ConcatHash (hash_of l) (hash_of r) /\ hashed l /\ hashed r
  end.

(** The tree of an index is hashed, and [hash_] is the hash of its root. *)
Definition index_hashed (this : Index) : Prop :=
  match root_ this with
  | Some root => hashed root /\ hash_ this = hash_of root
  | None => True
  end.

End Integrity.

End CSMerkle.

(** ** data_block.h, data_block.cpp *)

(** [double] is IEEE-754 binary64: every operation below rounds once, to
    nearest with ties to even, as the primitive floats do. *)

Module IDA.

Open Scope float_scope.

(** [typedef std::vector<double> OneDimMatrix;]
    [typedef std::vector<OneDimMatrix> TwoDimMatrix;] *)
Definition OneDimMatrix := list float.
Definition TwoDimMatrix := list (list float).

(** [v[i]], [m[i][j]] and [m[i][j] = x].  An index past the end is undefined
    in the source; here a read gives 0 and a write does nothing. *)
Definition at1 (v : OneDimMatrix) (i : nat) : float := nth i v 0.
Definition at2 (m : TwoDimMatrix) (i j : nat) : float := at1 (nth i m []) j.
Definition set2 (m : TwoDimMatrix) (i j : nat) (x : float) : TwoDimMatrix :=
  <[i := <[j := x]> (nth i m [])]> m.
Definition zeros (n : nat) : OneDimMatrix := repeat 0 n.
Definition zeros2 (rows cols : nat) : TwoDimMatrix := repeat (zeros cols) rows.

(** Conversion of an integer to [double], for magnitudes below 2^63; exact
    below 2^53. *)
Definition of_Z (z : Z) : float :=
  match z with
  | Z0 => 0
  | Zpos _ => PrimFloat.of_uint63 (Uint63.of_Z z)
  | Zneg p => - PrimFloat.of_uint63 (Uint63.of_Z (Zpos p))
  end.

(** [pow(b, e)] at integer arguments whose power is below 2^53, where the
    result is representable and [pow] returns it. *)
Definition pow (b : Z) (e : nat) : float := of_Z (b ^ Z.of_nat e).

(** [round]: to the nearest integer, halves away from zero. *)
Definition round (x : float) : float :=
  match Prim2SF x with
  | S754_finite s m e =>
      if (0 <=? e)%Z then x
      else
        let d := (2 ^ (- e))%Z in
        let q := (Zpos m / d)%Z in
        let r := (Zpos m mod d)%Z in
        let n := if (d <=? 2 * r)%Z then (q + 1)%Z else q in
        if s then - of_Z n else of_Z n
  | _ => x
  end.

(** The conversion of a [double] to [int]: the value is truncated towards
    zero.  For a value whose truncation is not an [int] (and for an infinity
    or a NaN) the conversion is undefined in the source; the conversion
    instruction of the x86-64 build yields the smallest [int] then. *)
Definition int_min : Z := - 2 ^ 31.
Definition int_max : Z := 2 ^ 31 - 1.

Definition to_int (x : float) : Z :=
  match Prim2SF x with
  | S754_zero _ => 0%Z
  | S754_finite s m e =>
      let magnitude :=
        if (0 <=? e)%Z then (Zpos m * 2 ^ e)%Z else (Zpos m / 2 ^ (- e))%Z in
      let truncated := if s then (- magnitude)%Z else magnitude in
      if ((int_min <=? truncated) && (truncated <=? int_max))%Z
      then truncated else int_min
  | _ => int_min
  end.

(** [abs]: the call is unqualified and only [<cmath>] is included, so with
    libstdc++ it is [int abs(int)] of the C library: the [double] argument is
    converted to [int], and the [int] result back to [double].  The negation
    of the smallest [int] wraps to itself. *)
Definition abs (x : float) : float :=
  let n := to_int x in
  of_Z (if (n =? int_min)%Z then int_min else Z.abs n).

(** [operator ==] on two [std::vector<double>]. *)
Fixpoint vec_eqb (a b : OneDimMatrix) : bool :=
  match a, b with
  | [], [] => true
  | x :: a', y :: b' => (x =? y) && vec_eqb a' b'
  | _, _ => false
  end.

(** The parameters of [IDA(int n, int m, int p)]. *)
Record t := mk { n_ : nat; m_ : nat; p_ : nat }.

(** [TwoDimMatrix IDA::Encode(const OneDimMatrix &message) const] *)
Definition Encode (ida : t) (message : OneDimMatrix) : TwoDimMatrix :=
  let length := List.length message in
  let n := n_ ida in
  let m := m_ ida in
  let a :=
    for_range 0 n (fun i a =>
      for_range 0 m (fun j a => set2 a i j (pow (1 + Z.of_nat i) j)) a)
      (zeros2 n m) in
  for_range 0 n (fun i c =>
    for_range 0 (length / m) (fun j c =>
      for_range 0 m (fun k c =>
        set2 c i j (at2 c i j + at2 a i k * at1 message (j * m + k))) c) c)
    (zeros2 n (length / m)).

(** The state of [PartialPivotGaussElim]: the matrix and the index vector it
    updates in place, the row scales [c], and [k], which is declared outside
    the column loop and keeps its value from one column to the next. *)
Record elim := mkElim {
  matrix : TwoDimMatrix;
  index : list nat;
  c : OneDimMatrix;
  k : nat
}.

Definition idx (index : list nat) (i : nat) : nat := nth i index 0%nat.

(** [static void PartialPivotGaussElim(TwoDimMatrix &matrix,
                                       std::vector<int> &index)] *)
Definition PartialPivotGaussElim (matrix0 : TwoDimMatrix) (index0 : list nat)
  : TwoDimMatrix * list nat :=
  let index_size := List.length index0 in
  let index1 := for_range 0 index_size (fun i index => <[i := i]> index) index0 in
  let c1 :=
    for_range 0 index_size (fun i c =>
      let c1 :=
        for_range 0 index_size (fun j c1 =>
          let c0 := abs (at2 matrix0 i j) in
          if c1 <? c0 then c0 else c1) 0 in
      <[i := c1]> c) (zeros index_size) in
  let final :=
    for_range 0 (index_size - 1) (fun j st =>
      (* the pivot search *)
      let '(_, k1) :=
        for_range j index_size (fun i '(pi1, k) =>
          let pi0 := abs (at2 (matrix st) (idx (index st) i) j) in
          let pi0 := pi0 / at1 (c st) (idx (index st) i) in
          if pi1 <? pi0 then (pi0, i) else (pi1, k)) (0, k st) in
      (* the swap *)
      let itmp := idx (index st) j in
      let index2 := <[j := idx (index st) k1]> (index st) in
      let index3 := <[k1 := itmp]> index2 in
      (* the elimination below the pivot *)
      let matrix2 :=
        for_range (j + 1) index_size (fun i mat =>
          let pj := at2 mat (idx index3 i) j / at2 mat (idx index3 j) j in
          let mat := set2 mat (idx index3 i) j pj in
          for_range (j + 1) index_size (fun l mat =>
            set2 mat (idx index3 i) l
              (at2 mat (idx index3 i) l - pj * at2 mat (idx index3 j) l)) mat)
          (matrix st) in
      {| matrix := matrix2; index := index3; c := c st; k := k1 |})
      {| matrix := matrix0; index := index1; c := c1; k := 0 |} in
  (matrix final, index final).

(** [static TwoDimMatrix Invert(TwoDimMatrix &matrix)] *)
Definition Invert (matrix0 : TwoDimMatrix) : TwoDimMatrix :=
  let num_rows := List.length matrix0 in
  let b0 :=
    for_range 0 num_rows (fun i b => set2 b i i 1) (zeros2 num_rows num_rows) in
  let '(matrix, index) :=
    PartialPivotGaussElim matrix0 (repeat 0%nat num_rows) in
  let b :=
    for_range 0 (num_rows - 1) (fun i b =>
      for_range (i + 1) num_rows (fun j b =>
        for_range 0 num_rows (fun k b =>
          set2 b (idx index j) k
            (at2 b (idx index j) k
             - at2 matrix (idx index j) i * at2 b (idx index i) k)) b) b) b0 in
  for_range 0 num_rows (fun i x =>
    let x :=
      set2 x (num_rows - 1) i
        (at2 b (idx index (num_rows - 1)) i
         / at2 matrix (idx index (num_rows - 1)) (num_rows - 1)) in
    for_down (num_rows - 1) (fun j x =>
      let x := set2 x j i (at2 b (idx index j) i) in
      let x :=
        for_range (j + 1) num_rows (fun k x =>
          set2 x j i (at2 x j i - at2 matrix (idx index j) k * at2 x k i)) x in
      set2 x j i (at2 x j i / at2 matrix (idx index j) j)) x)
    (zeros2 num_rows num_rows).

(** [OneDimMatrix IDA::Decode(const TwoDimMatrix &encoded,
                              const std::vector<int> &fid) const] *)
Definition Decode (ida : t) (encoded : TwoDimMatrix) (fid : list Z)
  : OneDimMatrix :=
  let m := m_ ida in
  let num_rows := (List.length encoded * List.length (nth 0 encoded []))%nat in
  let a :=
    for_range 0 m (fun i a =>
      for_range 0 m (fun j a => set2 a i j (pow (nth i fid 0%Z) j)) a)
      (zeros2 m m) in
  let ia := Invert a in
  let dm :=
    for_range 0 num_rows (fun i dm =>
      for_range 0 m (fun k dm =>
        <[i := at1 dm i + at2 ia (i mod m) k * at2 encoded k (i / m)]> dm) dm)
      (zeros num_rows) in
  for_range 0 (List.length dm) (fun i dm => <[i := round (at1 dm i)]> dm) dm.

End IDA.

(** [class DataFragment]: one row of the encoded matrix and its index. *)
Record DataFragment := mkFragment {
  fragment_ : IDA.OneDimMatrix;
  index_ : Z
}.

Module DataBlock.

(** [std::vector<DataFragment> FragsFromMatrix(const TwoDimMatrix &matrix)] *)
Definition FragsFromMatrix (matrix : IDA.TwoDimMatrix) : list DataFragment :=
  for_range 0 (List.length matrix) (fun i frags =>
    frags ++ [mkFragment (nth i matrix []) (Z.of_nat i + 1)]) [].

(** [class DataBlock]; [ida_] is [IDA(14, 10, 40)] in every constructor. *)
Record t := mk {
  original_ : IDA.OneDimMatrix;
  fragments_ : list DataFragment
}.

Definition ida_ : IDA.t := IDA.mk 14 10 40.

(** The numeric value of a [char]: plain [char] is signed on the targets
    the project builds for, so bytes from 128 up are negative. *)
Definition char_value (c : ascii) : Z :=
  let n := Z.of_nat (nat_of_ascii c) in
  if n <? 128 then n else n - 256.

(** The loop over the input of the first constructor.  The message of the
    exception is built by [std::string(const char *, size_t)], that is, a
    prefix of the literal. *)
Fixpoint push_chars (input : list ascii) (original : IDA.OneDimMatrix)
  : result IDA.OneDimMatrix :=
  match input with
  | [] => inr original
  | c :: rest =>
      let char_utf := IDA.of_Z (char_value c) in
      if (char_utf <? 1000)%float
      then push_chars rest (original ++ [IDA.of_Z (char_value c)])
      else inl (runtime_error
                  (String.substring 0 (Z.to_nat (char_value c))
                     "Cannot encode character %c"))
  end.

(** [while(original_.size() < 40) original_.push_back(0);] *)
Definition pad (original : IDA.OneDimMatrix) : IDA.OneDimMatrix :=
  original ++ repeat 0%float (40 - List.length original).

(** [DataBlock::DataBlock(const std::string &input, bool sanity_check)] *)
Definition of_string (input : string) (sanity_check : bool) : result t :=
  if (40 <? String.length input)%nat
  then inl (runtime_error "Cannot encode, input too large")
  else
    bind (push_chars (list_ascii_of_string input) []) (fun original =>
      let original := pad original in
      let fragments := FragsFromMatrix (IDA.Encode ida_ original) in
      if sanity_check then
        let first_ten_frags := map fragment_ (firstn 10 fragments) in
        let indices := [1; 2; 3; 4; 5; 6; 7; 8; 9; 10] in
        if IDA.vec_eqb (IDA.Decode ida_ first_ten_frags indices) original
        then inr (mk original fragments)
        else inl assertion_failed
      else inr (mk original fragments)).

(** [DataBlock::DataBlock(const std::vector<DataFragment> &fragments)] *)
Definition of_fragments (fragments : list DataFragment) : t :=
  let frag_indices := map index_ fragments in
  let frag_matrix := map fragment_ fragments in
  let original := IDA.Decode ida_ frag_matrix frag_indices in
  mk original (FragsFromMatrix (IDA.Encode ida_ original)).

(** [bool operator == (const DataFragment &, const DataFragment &)] *)
Definition fragment_eqb (df1 df2 : DataFragment) : bool :=
  IDA.vec_eqb (fragment_ df1) (fragment_ df2) && (index_ df1 =? index_ df2).

(** [char(utf_code)]: the value is truncated towards zero and narrowed to
    a byte.  (For a value outside the range of [char] the conversion is
    undefined in the source; here a finite value is reduced modulo 256, and
    an infinity or a NaN gives the byte 0.) *)
Definition char_of_double (x : float) : ascii :=
  match Prim2SF x with
  | S754_finite s m e =>
      let magnitude := if 0 <=? e then Zpos m * 2 ^ e else Zpos m / 2 ^ (- e) in
      let truncated := if s then - magnitude else magnitude in
      ascii_of_nat (Z.to_nat (truncated mod 256))
  | _ => Ascii.zero
  end.

(** The loop of [DataBlock::Decode]: characters up to the first zero code. *)
Fixpoint Decode_loop (original : IDA.OneDimMatrix) : string :=
  match original with
  | [] => EmptyString
  | utf_code :: rest =>
      if (utf_code =? 0)%float then EmptyString
      else String (char_of_double utf_code) (Decode_loop rest)
  end.

(** [std::string DataBlock::Decode() const] *)
Definition Decode (block : t) : string := Decode_loop (original_ block).

(** A text up to its first zero byte. *)
Fixpoint until_nul (s : string) : string :=
  match s with
  | EmptyString => EmptyString
  | String c rest =>
      if Ascii.eqb c Ascii.zero then EmptyString else String c (until_nul rest)
  end.

(** The rows and indices a reader passes to [Decode] when it holds the
    fragments from position [from] on. *)
Definition decode_from (from : nat) (block : t) : IDA.OneDimMatrix :=
  let held := skipn from (fragments_ block) in
  IDA.Decode ida_ (map fragment_ held) (map index_ held).

(** The block of a given padded vector. *)
Definition block_of (original : IDA.OneDimMatrix) : t :=
  mk original (FragsFromMatrix (IDA.Encode ida_ original)).

(** The test of the [assert] in the first constructor. *)
Definition sanity_passes (original : IDA.OneDimMatrix) : bool :=
  IDA.vec_eqb
    (IDA.Decode ida_ (map fragment_ (firstn 10 (fragments_ (block_of original))))
       [1; 2; 3; 4; 5; 6; 7; 8; 9; 10])
    original.

(** The padded vector the first constructor builds from a text. *)
Definition vector_of (input : string) : IDA.OneDimMatrix :=
  pad (map (fun c => IDA.of_Z (char_value c)) (list_ascii_of_string input)).


(** The padded vector of the text "hello world". *)
Definition hello_world : IDA.OneDimMatrix :=
  pad (map IDA.of_Z [104; 101; 108; 108; 111; 32; 119; 111; 114; 108; 100]).

End DataBlock.

(** ** data_block.h: splitting a string *)

Module Text.

(** The first position of [delimiter] in [s]. *)
Fixpoint find_first (s delimiter : string) : option nat :=
  if String.prefix delimiter s then Some 0%nat
  else
    match s with
    | EmptyString => None
    | String _ rest => option_map S (find_first rest delimiter)
    end.

(** [s.find(delimiter, pos)]: the first position at or after [pos] where
    [delimiter] starts, [None] for [std::string::npos]. *)
Fixpoint find (s delimiter : string) (pos : nat) {struct pos} : option nat :=
  match pos with
  | O => find_first s delimiter
  | S pos' =>
      match s with
      | EmptyString => None
      | String _ rest => option_map S (find rest delimiter pos')
      end
  end.

(** [s.substr(pos)], for [pos] within the string. *)
Definition substr_from (s : string) (pos : nat) : string :=
  substring pos (String.length s - pos) s.

(** The loop of [Split]; [None] when it has not finished after [fuel]
    rounds. *)
Fixpoint Split_loop (fuel : nat) (s delimiter : string) (pos_start : nat)
    (res : list string) : option (list string) :=
  match fuel with
  | O => None
  | S fuel' =>
      match find s delimiter pos_start with
      | Some pos_end =>
          let token := substring pos_start (pos_end - pos_start) s in
          let pos_start := (pos_end + String.length delimiter)%nat in
          Split_loop fuel' s delimiter pos_start (res ++ [token])
      | None => Some (res ++ [substr_from s pos_start])
      end
  end.

(** [static StringArr Split(const std::string &s,
                            const std::string &delimiter)], with one round
    more than [s] has characters. *)
Definition Split (s delimiter : string) : option (list string) :=
  Split_loop (S (String.length s)) s delimiter 0 [].

End Text.

(** ** database.h, database.cpp *)

Module Database.

(** [class Database]: the key-fragment store and the index of its keys. *)
Record t := mk {
  data_ : gmap Z DataFragment;
  index_ : CSMerkle.Index
}.

(** [Database::Database() : index_(nullptr, nullptr)] *)
Definition empty : t := {| data_ := ∅; index_ := CSMerkle.empty |}.

(** A member function: the outcome and the store it leaves, also when it
    throws. *)
Definition action (A : Type) : Type := t -> result A * t.

(** [std::map::insert]: an existing entry is kept. *)
Definition map_insert (key : Z) (frag : DataFragment)
    (data : gmap Z DataFragment) : gmap Z DataFragment :=
  match data !! key with
  | Some _ => data
  | None => <[key := frag]> data
  end.

(** [bool Database::Contains(const Key &key)] *)
Definition Contains (key : Z) (db : t) : bool :=
  CSMerkle.Contains (index_ db) key.

(** [DataFragment Database::Lookup(const Key &key)]; [data_.at(key)] throws
    [std::out_of_range] on a key the map does not hold. *)
Definition Lookup (key : Z) : action DataFragment := fun db =>
  if CSMerkle.Contains (index_ db) key then
    match data_ db !! key with
    | Some frag => (inr frag, db)
    | None => (inl out_of_range, db)
    end
  else (inl (runtime_error "Key does not exist in database."), db).

(** [void Database::Update(const std::pair<Key, DataFragment> &)] *)
Definition Update (key_frag_pair : Z * DataFragment) : action unit := fun db =>
  match data_ db !! key_frag_pair.1 with
  | None => (inl (runtime_error "Key does not exist in database."), db)
  | Some _ =>
      (inr tt, {| data_ := <[key_frag_pair.1 := key_frag_pair.2]> (data_ db);
                  index_ := index_ db |})
  end.

(** [void Database::Delete(const Key &key)] *)
Definition Delete (key : Z) : action unit := fun db =>
  if CSMerkle.Contains (index_ db) key then
    (inr tt, {| data_ := delete key (data_ db); index_ := index_ db |})
  else (inl (runtime_error "Key does not exist in database."), db).

(** [KeyFragMap Database::ReadRange(const Key &lower_bound,
                                    const Key &upper_bound)] *)
Definition ReadRange (lower_bound upper_bound : Z) (db : t)
  : gmap Z DataFragment :=
  filter (fun kf => Key.InBetween kf.1 lower_bound upper_bound true = true)
    (data_ db).

Section Hashing.

Variable ConcatHash : Z -> Z -> Z.

(** [void Database::Insert(const std::pair<Key, DataFragment> &)] *)
Definition Insert (key_frag_pair : Z * DataFragment) : action unit := fun db =>
  match data_ db !! key_frag_pair.1 with
  | Some _ => (inl (runtime_error "Key already exists in db"), db)
  | None =>
      match CSMerkle.Insert ConcatHash (index_ db) key_frag_pair.1 with
      | None => (inl null_dereference, db)
      | Some index' =>
          (inr tt,
           {| data_ := map_insert key_frag_pair.1 key_frag_pair.2 (data_ db);
              index_ := index' |})
      end
  end.

(** One operation of the store, and a run of them; an operation that throws
    leaves the run going, as a caller that catches would. *)
Inductive op : Type :=
| OpInsert (key : Z) (frag : DataFragment)
| OpUpdate (key : Z) (frag : DataFragment)
| OpDelete (key : Z).

Definition run_op (o : op) (db : t) : t :=
  match o with
  | OpInsert key frag => (Insert (key, frag) db).2
  | OpUpdate key frag => (Update (key, frag) db).2
  | OpDelete key => (Delete key db).2
  end.

Definition run (ops : list op) (db : t) : t :=
  fold_left (fun db o => run_op o db) ops db.

End Hashing.

(** The keys the index holds: the leaves of its tree. *)
Definition index_keys (db : t) : list Z :=
  match CSMerkle.root_ (index_ db) with
  | Some root => CSMerkle.leaves root
  | None => []
  end.

(** A run without a delete. *)
Definition no_delete (ops : list op) : Prop :=
  forall key, ~ In (OpDelete key) ops.

(** Every key of the index is a key of the map. *)
Definition index_in_map (db : t) : Prop :=
  forall key, In key (index_keys db) -> is_Some (data_ db !! key).

(** Every key of the map is a key of the index. *)
Definition map_in_index (db : t) : Prop :=
  forall key, is_Some (data_ db !! key) -> In key (index_keys db).

End Database.

(** ** peer_repr.h *)

(** [class PeerRepr] *)
Record PeerRepr := mkPeerRepr {
  id_ : Z;
  min_key_ : Z;
  max_key_ : Z;
  ip_addr_ : string;
  port_ : Z
}.

(** ** The JSON values the handlers build and read *)

Module Json.

#[local] Set Warnings "-register-all".

Inductive Value : Type :=
| Null
| Bool (b : bool)
| String (s : string)
| Array (elements : list Value)
| Object (members : list (string * Value)).

Fixpoint assoc (key : string) (members : list (string * Value)) : option Value :=
  match members with
  | [] => None
  | (k, v) :: rest => if String.eqb k key then Some v else assoc key rest
  end.

Fixpoint assoc_set (key : string) (x : Value) (members : list (string * Value))
  : list (string * Value) :=
  match members with
  | [] => [(key, x)]
  | (k, v) :: rest =>
      if String.eqb k key then (k, x) :: rest else (k, v) :: assoc_set key x rest
  end.

Definition members_of (v : Value) : list (string * Value) :=
  match v with
  | Object members => members
  | _ => []
  end.

(** [Value &Value::operator[](const char *key)] on a non-const value: a null
    value turns into an object, and a member that is not there is added as
    null.  Returns the member and the value as it is afterwards. *)
Definition subscript (v : Value) (key : string) : Value * Value :=
  match assoc key (members_of v) with
  | Some x => (x, Object (members_of v))
  | None => (Null, Object (assoc_set key Null (members_of v)))
  end.

(** [v[key] = x] *)
Definition assign (v : Value) (key : string) (x : Value) : Value :=
  Object (assoc_set key x (members_of v)).

(** [const Value &Value::operator[](const char *key) const]: a member that
    is not there reads as null. *)
Definition get (v : Value) (key : string) : Value :=
  match assoc key (members_of v) with
  | Some x => x
  | None => Null
  end.

(** The values a range-based [for] visits: the elements of an array, the
    member values of an object, nothing for any other kind. *)
Definition iterate (v : Value) : list Value :=
  match v with
  | Array elements => elements
  | Object members => map snd members
  | _ => []
  end.

(** [std::string Value::asString() const] *)
Definition asString (v : Value) : result string :=
  match v with
  | Null => inr ""%string
  | String s => inr s
  | Bool true => inr "true"%string
  | Bool false => inr "false"%string
  | _ => inl (runtime_error "Type is not convertible to string")
  end.

End Json.

(** ** peer.h, peer.cpp *)

Module Peer.

(** [#define NUM_REPLICAS 14] *)
Definition NUM_REPLICAS : nat := 14.

(** The members of [class Peer] the modelled functions touch, and the lines
    written by [Peer::Log]. *)
Record t := mk {
  repr : PeerRepr;
  database_ : Database.t;
  current_client_id_ : option Z;
  log_ : list string
}.

Definition action (A : Type) : Type := t -> result A * t.

Definition ret {A : Type} (a : A) : action A := fun st => (inr a, st).
Definition throw {A : Type} (e : exn) : action A := fun st => (inl e, st).
Definition andthen {A B : Type} (m : action A) (k : A -> action B) : action B :=
  fun st =>
    match m st with
    | (inl e, st') => (inl e, st')
    | (inr a, st') => k a st'
    end.
Definition lift {A : Type} (r : result A) : action A := fun st => (r, st).

Notation "x <- m ;; k" := (andthen m (fun x => k))
  (at level 100, m at next level, right associativity).

(** [void Peer::Log(const std::string &str)] *)
Definition Log (str : string) : action unit := fun st =>
  (inr tt, {| repr := repr st; database_ := database_ st;
              current_client_id_ := current_client_id_ st;
              log_ := log_ st ++ [str] |}).

(** A store operation run on [database_]. *)
Definition on_database {A : Type} (m : Database.action A) : action A := fun st =>
  let '(r, db) := m (database_ st) in
  (r, {| repr := repr st; database_ := db;
         current_client_id_ := current_client_id_ st; log_ := log_ st |}).

(** [bool Peer::StoredLocally(const Key &key)] *)
Definition StoredLocally (key : Z) (st : t) : bool :=
  Key.InBetween key (min_key_ (repr st)) (id_ (repr st)) true.

Section Environment.

Variable ConcatHash : Z -> Z -> Z.

(** What the rest of the ring answers.  [forward_get_succ key]: the reply to
    the [GET_SUCC] request that [GetSuccessor] forwards (with its retry
    through the predecessor), or the exception it ends in.
    [send_create_frag], [send_read_frag]: the replies to [CREATE_FRAG] and
    [READ_FRAG].  [sample]: the fragment [std::sample] draws. *)
Variable forward_get_succ : Z -> result PeerRepr.
Variable send_create_frag : PeerRepr -> Z -> DataFragment -> result bool.
Variable send_read_frag : PeerRepr -> Z -> result DataFragment.
Variable sample : list DataFragment -> list DataFragment.

(** [PeerRepr Peer::GetSuccessor(const Key &key)] *)
Definition GetSuccessor (key : Z) : action PeerRepr := fun st =>
  if Key.InBetween key (min_key_ (repr st)) (id_ (repr st)) true
  then (inr (repr st), st)
  else (forward_get_succ key, st).

(** The loop of [Peer::GetNSuccessors]: [i] runs from its current value to
    [i + remaining]. *)
Fixpoint GetNSuccessors_loop (remaining : nat) (i : nat) (key : Z)
    (previous_peer_id : Z) (successors_list : list PeerRepr)
  : action (list PeerRepr) :=
  match remaining with
  | O => ret successors_list
  | S remaining' =>
      ith_succ <- GetSuccessor (Key.add previous_peer_id 1) ;;
      let successors_list := successors_list ++ [ith_succ] in
      if (previous_peer_id =? key) && negb (Nat.eqb i 0)
      then ret successors_list
      else GetNSuccessors_loop remaining' (S i) key (id_ ith_succ) successors_list
  end.

(** [std::vector<PeerRepr> Peer::GetNSuccessors(const Key &key, int n)] *)
Definition GetNSuccessors (key : Z) (n : nat) : action (list PeerRepr) :=
  GetNSuccessors_loop n 0 key key [].

(** [bool Peer::CreateFragment(const PeerRepr &recipient, const Key &key,
                               const DataFragment &fragment)] *)
Definition CreateFragment (recipient : PeerRepr) (key : Z)
    (fragment : DataFragment) : action bool := fun st =>
  if (match current_client_id_ st with
      | Some client => id_ recipient =? client
      | None => false
      end) || (id_ recipient =? id_ (repr st))
  then (inr false, st)
  else (send_create_frag recipient key fragment, st).

(** The placement loop of [Peer::Create], from index [i] on, over the
    fragments not yet placed; [succ_list.at(i)] throws on an index the list
    does not have. *)
Fixpoint place (key : Z) (succ_list : list PeerRepr)
    (fragments : list DataFragment) (i : nat) (num_replicas : Z) : action Z :=
  match fragments with
  | [] => ret num_replicas
  | fragment :: rest =>
      match nth_error succ_list i with
      | None => throw out_of_range
      | Some succ =>
          fun st =>
            if id_ succ =? id_ (repr st) then
              (_ <- on_database (Database.Insert ConcatHash (key, fragment)) ;;
               place key succ_list rest (S i) (num_replicas + 1)) st
            else
              (stored <- CreateFragment succ key fragment ;;
               place key succ_list rest (S i)
                 (num_replicas + (if stored : bool then 1 else 0))) st
      end
  end.

(** [bool Peer::Create(const Key &key, const std::string &value)] *)
Definition Create (key : Z) (value : string) : action bool :=
  block <- lift (DataBlock.of_string value true) ;;
  succ_list <- GetNSuccessors key NUM_REPLICAS ;;
  if (List.length succ_list <? 10)%nat then ret false
  else
    num_replicas <- place key succ_list (DataBlock.fragments_ block) 0 0 ;;
    ret (10 <=? num_replicas).

(** [std::set<DataFragment>::insert]: the set is ordered by index and
    keeps one fragment per index. *)
Fixpoint set_insert (frag : DataFragment) (set : list DataFragment)
  : list DataFragment :=
  match set with
  | [] => [frag]
  | x :: rest =>
      if index_ frag <? index_ x then frag :: x :: rest
      else if index_ x <? index_ frag then x :: set_insert frag rest
      else x :: rest
  end.

(** The loop of [Peer::Read] over the successors; a [READ_FRAG] that fails
    is skipped. *)
Fixpoint gather (key : Z) (succ_list : list PeerRepr)
    (fragments : list DataFragment) : action (list DataFragment) :=
  match succ_list with
  | [] => ret fragments
  | succ :: rest =>
      if (List.length fragments =? 10)%nat then ret fragments
      else fun st =>
        if (id_ succ =? id_ (repr st)) && Database.Contains key (database_ st)
        then
          (frag <- on_database (Database.Lookup key) ;;
           gather key rest (set_insert frag fragments)) st
        else
          match send_read_frag succ key with
          | inl _ => gather key rest fragments st
          | inr frag => gather key rest (set_insert frag fragments) st
          end
  end.

(** [DataBlock Peer::Read(const Key &key)] *)
Definition Read (key : Z) : action DataBlock.t :=
  succ_list <- GetNSuccessors key NUM_REPLICAS ;;
  fragments <- gather key succ_list [] ;;
  if (List.length fragments <? 10)%nat
  then throw (runtime_error "Less than 10 distinct frags.")
  else ret (DataBlock.of_fragments fragments).

(** [void Peer::RetrieveMissing(const Key &key)]; [random_els.at(0)] throws
    when nothing was drawn. *)
Definition RetrieveMissing (key : Z) : action unit :=
  _ <- Log ("Retrieving missing key " ++ Key.IntToHexStr key) ;;
  missing_block <- Read key ;;
  let random_els := sample (DataBlock.fragments_ missing_block) in
  match nth_error random_els 0 with
  | None => throw out_of_range
  | Some frag => on_database (Database.Insert ConcatHash (key, frag))
  end.

(** [keys_to_synchronize.emplace_back(it.asString(), true)] for every value
    the loop visits. *)
Fixpoint collect_keys (values : list Json.Value) : result (list Z) :=
  match values with
  | [] => inr []
  | it :: rest =>
      bind (Json.asString it) (fun s =>
        match Key.of_hex s with
        | None => inl (runtime_error "Unexpected content found while parsing character string.")
        | Some key => bind (collect_keys rest) (fun keys => inr (key :: keys))
        end)
  end.

(** The second loop of the handler. *)
Fixpoint retrieve_all (keys_to_synchronize : list Z) : action unit :=
  match keys_to_synchronize with
  | [] => ret tt
  | key :: rest => fun st =>
      if negb (Database.Contains key (database_ st))
      then (_ <- RetrieveMissing key ;; retrieve_all rest) st
      else retrieve_all rest st
  end.

(** [Json::Value Peer::SynchronizeHandler(const Json::Value &request)].
    The first loop runs over [resp["KEYS"]]. *)
Definition SynchronizeHandler (request : Json.Value) : action Json.Value :=
  _ <- Log "Synchronize handler" ;;
  let resp := Json.Null in
  let resp := Json.assign resp "SUCCESS" (Json.Bool true) in
  let '(keys, resp) := Json.subscript resp "KEYS" in
  keys_to_synchronize <- lift (collect_keys (Json.iterate keys)) ;;
  _ <- retrieve_all keys_to_synchronize ;;
  ret resp.

(** The handler as the design words it: for each announced key (the [KEYS]
    of the request) that the store does not hold, retrieve it. *)
Definition SynchronizeHandler_spec (request : Json.Value) : action Json.Value :=
  _ <- Log "Synchronize handler" ;;
  let resp := Json.assign Json.Null "SUCCESS" (Json.Bool true) in
  keys_to_synchronize <- lift (collect_keys (Json.iterate (Json.get request "KEYS"))) ;;
  _ <- retrieve_all keys_to_synchronize ;;
  ret resp.

End Environment.

End Peer.

(** ** finger_table.cpp: the table of fingers *)

(** [std::vector::at]: an index that is negative (and so, as [size_t],
    beyond every size) or not below the size throws. *)
Definition vector_at {A : Type} (v : list A) (n : Z) : result A :=
  if n <? 0 then inl out_of_range
  else match nth_error v (Z.to_nat n) with
       | Some x => inr x
       | None => inl out_of_range
       end.

Module Fingers.

(** [struct Finger] *)
Record Finger := mkFinger {
  lower_bound_ : Z;
  upper_bound_ : Z;
  successor_ : PeerRepr
}.

(** The member [table_]. *)
Definition table := list Finger.

(** [void FingerTable::AddFinger(const Finger &finger)] *)
Definition AddFinger (finger : Finger) (table_ : table) : table :=
  table_ ++ [finger].

(** [Finger FingerTable::GetNthEntry(int n)] *)
Definition GetNthEntry (n : Z) (table_ : table) : result Finger :=
  vector_at table_ n.

(** [PeerRepr FingerTable::Lookup(const Key &key)] *)
Fixpoint Lookup (key : Z) (table_ : table) : result PeerRepr :=
  match table_ with
  | [] => inl (runtime_error "Key not found")
  | finger :: rest =>
      let key_in_range :=
        Key.InBetween key (lower_bound_ finger) (upper_bound_ finger) true in
      if key_in_range then inr (successor_ finger) else Lookup key rest
  end.

Definition with_successor (succ : PeerRepr) (finger : Finger) : Finger :=
  {| lower_bound_ := lower_bound_ finger;
     upper_bound_ := upper_bound_ finger;
     successor_ := succ |}.

(** [void FingerTable::EditNthFinger(int n, const PeerRepr &succ)] *)
Definition EditNthFinger (n : Z) (succ : PeerRepr) (table_ : table)
  : result table :=
  match vector_at table_ n with
  | inl e => inl e
  | inr finger => inr (<[Z.to_nat n := with_successor succ finger]> table_)
  end.

(** [void FingerTable::AdjustFingers(const PeerRepr &new_peer)] *)
Fixpoint AdjustFingers (new_peer : PeerRepr) (table_ : table) : table :=
  match table_ with
  | [] => []
  | finger :: rest =>
      (if Key.InBetween (lower_bound_ finger) (min_key_ new_peer)
            (max_key_ new_peer) true
       then with_successor new_peer finger
       else finger) :: AdjustFingers new_peer rest
  end.

(** The first finger whose range holds the key. *)
Fixpoint first_holding (key : Z) (table_ : table) : option Finger :=
  match table_ with
  | [] => None
  | finger :: rest =>
      if Key.InBetween key (lower_bound_ finger) (upper_bound_ finger) true
      then Some finger else first_holding key rest
  end.

(** [bool FingerTable::Empty()] *)
Definition Empty (table_ : table) : bool :=
  match table_ with
  | [] => true
  | _ => false
  end.

End Fingers.

(** ** peer_repr.cpp: the list of successors *)

Module PeerList.

(** [class PeerList] *)
Record t := mk {
  max_entries_ : Z;
  peers_ : list PeerRepr
}.

(** [PeerList::PeerList(int max_entries)] *)
Definition new (max_entries : Z) : t :=
  {| max_entries_ := max_entries; peers_ := [] |}.

(** In [peers_.size() > max_entries_] and [peers_.size() < max_entries_] the
    [int] is converted to the 64-bit unsigned type of the size. *)
Definition as_size (n : Z) : Z := n mod 2 ^ 64.

(** The loop of [PeerList::Insert] from position [pos] on.  [None]: an
    entry with the id of the new peer was met ([return false]);
    [Some None]: the loop ended without a place; [Some (Some pos)]: the
    place found. *)
Fixpoint find_position (new_id previous_key : Z) (rest : list PeerRepr)
    (pos : nat) : option (option nat) :=
  match rest with
  | [] => Some None
  | it :: rest' =>
      if new_id =? id_ it then None
      else if Key.InBetween new_id previous_key (id_ it) true
           then Some (Some pos)
           else find_position new_id (id_ it) rest' (S pos)
  end.

(** [peers_.insert(position, new_peer)] *)
Definition insert_at (pos : nat) (new_peer : PeerRepr) (peers : list PeerRepr)
  : list PeerRepr :=
  firstn pos peers ++ new_peer :: skipn pos peers.

(** [peers_.pop_back()] *)
Definition pop_back (peers : list PeerRepr) : list PeerRepr := removelast peers.

(** [bool PeerList::Insert(const PeerRepr &new_peer)]: the answer and the
    list afterwards. *)
Definition Insert (new_peer : PeerRepr) (this : t) : bool * t :=
  match peers_ this with
  | [] => (true, {| max_entries_ := max_entries_ this; peers_ := [new_peer] |})
  | _ :: _ =>
      let previous_key := id_ (List.last (peers_ this) new_peer) in
      match find_position (id_ new_peer) previous_key (peers_ this) 0 with
      | None => (false, this)
      | Some (Some pos) =>
          let peers := insert_at pos new_peer (peers_ this) in
          let peers :=
            if as_size (max_entries_ this) <? Z.of_nat (List.length peers)
            then pop_back peers else peers in
          (true, {| max_entries_ := max_entries_ this; peers_ := peers |})
      | Some None =>
          if Z.of_nat (List.length (peers_ this)) <? as_size (max_entries_ this)
          then (true, {| max_entries_ := max_entries_ this;
                          peers_ := peers_ this ++ [new_peer] |})
          else (false, this)
      end
  end.

(** [unsigned long PeerList::Size()] *)
Definition Size (this : t) : Z := Z.of_nat (List.length (peers_ this)).

End PeerList.

(** ** Ordered fragment sets *)

(** The order of a [std::set<DataFragment>]: strictly increasing indices. *)
Fixpoint ascending (indices : list Z) : bool :=
  match indices with
  | [] => true
  | x :: rest =>
      match rest with
      | [] => true
      | y :: _ => (x <? y) && ascending rest
      end
  end.

(** ** Rings used in the examples *)

Module Ring.

(** The peer with the smallest id at or after [key], the first peer of the
    ring if there is none. *)
Fixpoint first_at_or_after (ids : list Z) (key : Z) : option Z :=
  match ids with
  | [] => None
  | id :: rest => if key <=? id then Some id else first_at_or_after rest key
  end.

Definition successor_id (ids : list Z) (key : Z) : Z :=
  match first_at_or_after ids key with
  | Some id => id
  | None => hd 0 ids
  end.

(** The id before [id] on the ring. *)
Fixpoint last_before (ids : list Z) (id : Z) (acc : Z) : Z :=
  match ids with
  | [] => acc
  | x :: rest => if x <? id then last_before rest id x else acc
  end.

Definition predecessor_id (ids : list Z) (id : Z) : Z :=
  last_before ids id (List.last ids 0).

Definition peer (ids : list Z) (id : Z) : PeerRepr :=
  {| id_ := id; min_key_ := Key.add (predecessor_id ids id) 1; max_key_ := id;
     ip_addr_ := "127.0.0.1"; port_ := 5000 + id |}.

(** The answer of the ring to a forwarded [GET_SUCC]. *)
Definition forward_get_succ (ids : list Z) (key : Z) : result PeerRepr :=
  inr (peer ids (successor_id ids key)).

(** A fresh peer with the given id on the ring. *)
Definition start (ids : list Z) (id : Z) : Peer.t :=
  {| Peer.repr := peer ids id; Peer.database_ := Database.empty;
     Peer.current_client_id_ := None; Peer.log_ := [] |}.

(** Eleven peers, 100 to 1100. *)
Definition eleven : list Z :=
  [100; 200; 300; 400; 500; 600; 700; 800; 900; 1000; 1100].

(** Fifteen peers, 100 to 1500. *)
Definition fifteen : list Z :=
  [100; 200; 300; 400; 500; 600; 700; 800; 900; 1000; 1100; 1200; 1300;
   1400; 1500].

(** Every remote peer stores what it is sent. *)
Definition accept_all (recipient : PeerRepr) (key : Z) (frag : DataFragment)
  : result bool := inr true.

(** No remote peer holds a fragment. *)
Definition hold_nothing (recipient : PeerRepr) (key : Z) : result DataFragment :=
  inl std_exception.

(** The peer with id [100 * i] holds fragment [i] of the block of "val". *)
Definition hold_val (recipient : PeerRepr) (key : Z) : result DataFragment :=
  match nth_error
          (DataBlock.fragments_ (DataBlock.block_of (DataBlock.vector_of "val")))
          (Z.to_nat (id_ recipient / 100 - 1)) with
  | Some frag => inr frag
  | None => inl std_exception
  end.

(** The draw that takes the first fragment. *)
Definition draw_first (frags : list DataFragment) : list DataFragment :=
  firstn 1 frags.

(** A [SYNCHRONIZE] request announcing the key 1f. *)
Definition announce_1f : Json.Value :=
  Json.Object
    [("COMMAND"%string, Json.String "SYNCHRONIZE");
     ("KEYS"%string, Json.Array [Json.String "1f"]);
     ("SENDER_ID"%string, Json.String "578");
     ("RECIPIENT_ID"%string, Json.String "5dc")].

End Ring.

(** * Properties *)

(** ** Keys *)

Example IntToHexStr_255 : Key.IntToHexStr 255 = "ff"%string.
Proof. reflexivity. Qed.

Example Size_zero : Key.Size 0 = 1.
Proof. reflexivity. Qed.

(** Scenario S1 and S2 of the key tests. *)
Example InBetween_S1 :
  Key.InBetween 75 0 99 false = true /\ Key.InBetween 99 0 99 false = false.
Proof. split; reflexivity. Qed.

Example InBetween_S2 :
  Key.InBetween 1 75 25 true = true /\ Key.InBetween 25 75 25 true = true
  /\ Key.InBetween 25 75 25 false = false.
Proof. repeat split; reflexivity. Qed.

Section KeyFacts.

Import Key.

Lemma keys_in_ring_val : keys_in_ring = 340282366920938463463374607431768211456.
Proof. reflexivity. Qed.

Lemma in_ring_mod v : in_ring v -> v mod keys_in_ring = v.
Proof. intros H. apply Z.mod_small. exact H. Qed.

Ltac ring_cases :=
  repeat match goal with
    | |- context [ ?a =? ?b ] => destruct (Z.eqb_spec a b)
    | |- context [ ?a <? ?b ] => destruct (Z.ltb_spec a b)
    | |- context [ ?a <=? ?b ] => destruct (Z.leb_spec a b)
    end; simpl; try lia; try (intuition (first [lia | congruence])).

(** On ring values the code is described by plain comparisons. *)
Lemma InBetween_in_ring v lo hi inc :
  in_ring v -> in_ring lo -> in_ring hi ->
  InBetween v lo hi inc =
    if lo =? hi then v =? hi
    else if lo <? hi then
      if inc then (lo <=? v) && (v <=? hi) else (lo <? v) && (v <? hi)
    else
      negb (if inc then (hi <? v) && (v <? lo) else (hi <=? v) && (v <=? lo)).
Proof.
  intros Hv Hlo Hhi. unfold InBetween.
  rewrite !in_ring_mod by assumption.
  destruct (lo =? hi); [destruct (v =? hi); reflexivity | reflexivity].
Qed.

(** C2, counterexample: in the wrapping branch the inclusive test of the
    code answers true at the upper bound (v = 25 on the arc from 75 to 25),
    where the three-branch wording answers false. *)
Lemma InBetween_wrap_wording_fails :
  InBetween 25 75 25 true = true /\ InBetween_spec 25 75 25 true = false.
Proof. split; reflexivity. Qed.

(** C2, amended: for ring values the code returns [v = lo] when the bounds
    coincide; [lo <= v <= hi] (inclusive) or [lo < v < hi] (exclusive) when
    [lo < hi]; and, when the arc wraps, [~ (hi < v < lo)] for the inclusive
    test and [~ (hi <= v <= lo)] for the exclusive one. *)
Theorem InBetween_three_branches v lo hi :
  in_ring v -> in_ring lo -> in_ring hi ->
  (lo = hi -> forall inc, InBetween v lo hi inc = true <-> v = lo) /\
  (lo < hi ->
     (InBetween v lo hi true = true <-> lo <= v <= hi) /\
     (InBetween v lo hi false = true <-> lo < v < hi)) /\
  (hi < lo ->
     (InBetween v lo hi true = true <-> ~ (hi < v < lo)) /\
     (InBetween v lo hi false = true <-> ~ (hi <= v <= lo))).
Proof.
  intros Hv Hlo Hhi.
  pose proof (fun inc => InBetween_in_ring v lo hi inc Hv Hlo Hhi) as E.
  split; [| split].
  - intros Heq inc. rewrite E. subst hi. ring_cases.
  - intros Hlt. split; rewrite E; ring_cases.
  - intros Hgt. split; rewrite E; ring_cases.
Qed.

(** The three-branch theorem at v = 25 on the wrapping arc from 75 to 25. *)
Lemma InBetween_three_branches_witness :
  (75 = 25 -> forall inc, InBetween 25 75 25 inc = true <-> 25 = 75) /\
  (75 < 25 ->
     (InBetween 25 75 25 true = true <-> 75 <= 25 <= 25) /\
     (InBetween 25 75 25 false = true <-> 75 < 25 < 25)) /\
  (25 < 75 ->
     (InBetween 25 75 25 true = true <-> ~ (25 < 25 < 75)) /\
     (InBetween 25 75 25 false = true <-> ~ (25 <= 25 <= 75))).
Proof.
  apply (InBetween_three_branches 25 75 25);
    unfold in_ring, keys_in_ring; lia.
Defined.

(** C8, counterexample: for a = 1, b = 2, c = 3 none of the three exclusive
    tests holds, so it is not the case that exactly one does. *)
Lemma InBetween_exactly_one_fails :
  ~ exactly_one (InBetween 1 2 3 false) (InBetween 2 3 1 false)
                (InBetween 3 1 2 false).
Proof.
  unfold exactly_one. vm_compute.
  intros [[H _] | [[_ [H _]] | [_ [_ H]]]]; discriminate H.
Qed.

(** ... and for a = 1, b = 3, c = 2 all three hold. *)
Lemma InBetween_all_three :
  InBetween 1 3 2 false = true /\ InBetween 3 2 1 false = true
  /\ InBetween 2 1 3 false = true.
Proof. repeat split; reflexivity. Qed.

(** C8, amended: for pairwise distinct ring values the three rotated
    exclusive tests have one and the same truth value, and exactly one of
    the two orientations [a in (b, c)] and [a in (c, b)] holds. *)
Theorem InBetween_rotation a b c :
  in_ring a -> in_ring b -> in_ring c ->
  a <> b -> b <> c -> a <> c ->
  InBetween a b c false = InBetween b c a false /\
  InBetween b c a false = InBetween c a b false /\
  InBetween a b c false = negb (InBetween a c b false).
Proof.
  intros Ha Hb Hc Hab Hbc Hac.
  rewrite !InBetween_in_ring by assumption.
  repeat split; ring_cases.
Qed.

Lemma InBetween_rotation_witness :
  InBetween 1 2 3 false = InBetween 2 3 1 false /\
  InBetween 2 3 1 false = InBetween 3 1 2 false /\
  InBetween 1 2 3 false = negb (InBetween 1 3 2 false).
Proof.
  apply (InBetween_rotation 1 2 3); unfold in_ring, keys_in_ring; lia.
Defined.

End KeyFacts.

(** ** Finger table *)

Section FingerFacts.

Import FingerTable.

Lemma hex_digits_length (n : nat) :
  forall (fuel : nat) (v : Z) (acc : string),
    (S n <= fuel)%nat -> 16 ^ Z.of_nat n <= v < 16 ^ Z.of_nat (S n) ->
    String.length (Key.hex_digits fuel v acc) = (S n + String.length acc)%nat.
Proof.
  induction n as [| n IH]; intros fuel v acc Hfuel Hv.
  - destruct fuel as [| fuel]; [lia |]. simpl.
    change (16 ^ Z.of_nat 1) with 16 in Hv.
    destruct (Z.ltb_spec v 16); [reflexivity | lia].
  - destruct fuel as [| fuel]; [lia |]. simpl Key.hex_digits.
    assert (Hpow : 16 ^ Z.of_nat (S n) = 16 * 16 ^ Z.of_nat n).
    { rewrite Nat2Z.inj_succ, Z.pow_succ_r by lia. reflexivity. }
    assert (Hpow' : 16 ^ Z.of_nat (S (S n)) = 16 * 16 ^ Z.of_nat (S n)).
    { rewrite (Nat2Z.inj_succ (S n)), Z.pow_succ_r by lia. reflexivity. }
    assert (0 < 16 ^ Z.of_nat n) by (apply Z.pow_pos_nonneg; lia).
    destruct (Z.ltb_spec v 16); [lia |].
    rewrite IH.
    + simpl. lia.
    + lia.
    + split.
      * apply Z.div_le_lower_bound; lia.
      * apply Z.div_lt_upper_bound; lia.
Qed.

(** A key that prints with all 32 hexadecimal digits has size 32. *)
Lemma Size_full_width v :
  16 ^ 31 <= v < 16 ^ 32 -> Key.Size v = 32.
Proof.
  intros Hv. unfold Key.Size, Key.IntToHexStr.
  rewrite (hex_digits_length 31); [reflexivity | lia |].
  exact Hv.
Qed.

(** Where the starting key has all 32 digits and the upper sum does not
    land on a multiple of the ring size, the code yields the stated range. *)
Lemma GetNthRange_full_width start i :
  16 ^ 31 <= start < 16 ^ 32 -> 0 <= i <= 127 ->
  (start + 2 ^ (i + 1)) mod Key.keys_in_ring <> 0 ->
  GetNthRange (FingerTable start) i = GetNthRange_spec start i.
Proof.
  intros Hs Hi Hnz.
  unfold GetNthRange, GetNthRange_spec, FingerTable; simpl.
  rewrite (Size_full_width start Hs).
  change (16 ^ 32) with Key.keys_in_ring.
  assert (HW : Key.uint256_mod = Key.keys_in_ring * Key.keys_in_ring) by reflexivity.
  assert (HR : 0 < Key.keys_in_ring) by reflexivity.
  unfold Key.wrap256. rewrite HW.
  clear HW. generalize dependent Key.keys_in_ring. intros R Hnz HR.
  pose proof (Z.mod_pos_bound (start + 2 ^ i) R HR) as Hl.
  pose proof (Z.mod_pos_bound (start + 2 ^ (i + 1)) R HR) as Hu.
  pose proof (Z.div_mod (start + 2 ^ (i + 1)) R ltac:(lia)) as Hdm.
  set (x := (start + 2 ^ (i + 1)) mod R) in *.
  f_equal.
  - apply Z.mod_small. nia.
  - rewrite (Z.mod_small x) by nia.
    rewrite (Z.mod_small (x - 1)) by nia.
    apply (Z.mod_unique_pos _ R ((start + 2 ^ (i + 1)) / R)); lia.
Qed.

(** C7: a starting key that prints with 31 hexadecimal digits (an id with
    a leading zero, here 0f10dbe8-4cbd-5e31-9b1f-af0cb9dda9cf) makes the
    table reduce modulo 16^31, and the range of index 124 is not the stated
    one; the table still announces 128 entries. *)
Theorem GetNthRange_short_key :
  let start := 0x0f10dbe84cbd5e319b1faf0cb9dda9cf in
  Key.Size start = 31 /\
  num_entries_ (FingerTable start) = 128 /\
  keys_in_chord_ (FingerTable start) = 16 ^ 31 /\
  GetNthRange (FingerTable start) 124 = (start, start - 1) /\
  GetNthRange_spec start 124 = (start + 2 ^ 124, start + 2 ^ 125 - 1).
Proof.
  cbv zeta.
  split; [reflexivity |].
  split; [reflexivity |].
  split; [vm_compute; reflexivity |].
  split; vm_compute; reflexivity.
Qed.

(** A second departure, at full width: when the upper sum is a multiple of
    the ring size, the trailing [- 1] wraps in 256 bits. *)
Lemma GetNthRange_upper_wraps :
  GetNthRange (FingerTable (2 ^ 127)) 126 = (2 ^ 127 + 2 ^ 126, 2 ^ 256 - 1) /\
  GetNthRange_spec (2 ^ 127) 126 = (2 ^ 127 + 2 ^ 126, 2 ^ 128 - 1).
Proof. split; vm_compute; reflexivity. Qed.

End FingerFacts.

(** ** Merkle index *)

Section MerkleFacts.

Import CSMerkle.

Variable ConcatHash : Z -> Z -> Z.

(** Distances between two literal keys are evaluated; a distance to the
    hash of an internal node stays symbolic. *)
Ltac closed_dist :=
  repeat match goal with
    | |- context [Distance (Zpos ?a) (Zpos ?b)] =>
        let v := eval vm_compute in (Distance (Zpos a) (Zpos b)) in
        change (Distance (Zpos a) (Zpos b)) with v
    end.

Ltac insert_step :=
  unfold Insert, with_root;
  cbn [root_ left_ right_ Insert_node hash_of left_of right_of];
  closed_dist.

Ltac shape_is n :=
  eexists; split; [reflexivity |];
  match n with
  | 1%nat => left; reflexivity
  | 2%nat => right; left; reflexivity
  | _ => right; right; reflexivity
  end.

(** The insertion test of the repository: the hashes of "a", "b" and "c",
    inserted in this order, give a root with the first two under its left
    child, the smaller one (that of "b") to the left, and the third as its
    right child. *)
Example insert_a_b_c :
  let a := 0x4f3f289869e35a0d820ac4e87987dbce in
  let b := 0x3f10dbe84cbd5e319b1faf0cb9dda9cf in
  let c := 0xb72f1bcde22957e2bb24d01077785f16 in
  option_map index_shape (insert_all ConcatHash empty [a; b; c])
  = Some (Some (SNode (SNode (SLeaf b) (SLeaf a)) (SLeaf c))).
Proof. reflexivity. Qed.

(** Three keys: no hash of an internal node is consulted. *)
Lemma insert_4_17_26 :
  insert_all ConcatHash empty [4; 17; 26] =
  Some (with_root (mkInternal ConcatHash (Leaf 4)
                     (mkInternal ConcatHash (Leaf 17) (Leaf 26)))).
Proof. reflexivity. Qed.

Lemma insert_4_26_31 :
  insert_all ConcatHash empty [4; 26; 31] =
  Some (with_root (mkInternal ConcatHash (Leaf 4)
                     (mkInternal ConcatHash (Leaf 26) (Leaf 31)))).
Proof. reflexivity. Qed.

(** Fourth key 31 into the tree of 4, 17, 26: three outcomes, by how the
    hash [h] of the inner node compares. *)
Lemma insert_31_after_4_17_26 h hr :
  exists t,
    Insert ConcatHash
      (with_root (Internal (Leaf 4) (Internal (Leaf 17) (Leaf 26) h) hr)) 31
    = Some t /\
    (index_shape t =
       Some (SNode (SNode (SLeaf 4) (SLeaf 31)) (SNode (SLeaf 17) (SLeaf 26)))
     \/ index_shape t =
       Some (SNode (SNode (SLeaf 4) (SNode (SLeaf 17) (SLeaf 26))) (SLeaf 31))
     \/ index_shape t =
       Some (SNode (SLeaf 4) (SNode (SLeaf 17) (SNode (SLeaf 26) (SLeaf 31))))).
Proof.
  insert_step.
  destruct (Distance 31 h) as [d |]; cbn [dist_eqb dist_ltb].
  - destruct (Z.eqb_spec 4 d) as [E | NE].
    + destruct (Z.ltb_spec 4 h).
      * shape_is 2%nat.
      * destruct (Z.ltb_spec 31 h); [lia |]. shape_is 2%nat.
    + destruct (Z.ltb_spec 4 d).
      * shape_is 1%nat.
      * shape_is 3%nat.
  - shape_is 3%nat.
Qed.

(** Fourth key 17 into the tree of 4, 26, 31.  In the last outcome the two
    children of the inner node are equally far from 17, and the side is
    chosen by the hashes of the children of the root, 4 and [h]. *)
Lemma insert_17_after_4_26_31 h hr :
  exists t,
    Insert ConcatHash
      (with_root (Internal (Leaf 4) (Internal (Leaf 26) (Leaf 31) h) hr)) 17
    = Some t /\
    (index_shape t =
       Some (SNode (SNode (SLeaf 4) (SLeaf 17)) (SNode (SLeaf 26) (SLeaf 31)))
     \/ index_shape t =
       Some (SNode (SNode (SLeaf 4) (SNode (SLeaf 26) (SLeaf 31))) (SLeaf 17))
     \/ index_shape t =
       Some (SNode (SLeaf 4) (SNode (SNode (SLeaf 26) (SLeaf 31)) (SLeaf 17)))).
Proof.
  insert_step.
  destruct (Distance 17 h) as [d |]; cbn [dist_eqb dist_ltb].
  - destruct (Z.eqb_spec 4 d) as [E | NE].
    + destruct (Z.ltb_spec 4 h).
      * shape_is 2%nat.
      * destruct (Z.ltb_spec 17 h); [lia |]. shape_is 2%nat.
    + destruct (Z.ltb_spec 4 d).
      * shape_is 1%nat.
      * destruct (Z.ltb_spec 4 h).
        -- shape_is 3%nat.
        -- destruct (Z.ltb_spec 17 h); [lia |]. shape_is 3%nat.
  - destruct (Z.ltb_spec 4 h).
    + shape_is 3%nat.
    + destruct (Z.ltb_spec 17 h); [lia |]. shape_is 3%nat.
Qed.

(** Called on an index that mirrors an internal root, the private insert
    never meets a null [left_] or [right_]. *)
Lemma Insert_node_total this root key :
  is_Some (left_ this) -> is_Some (right_ this) ->
  is_Some (Insert_node ConcatHash this root key).
Proof.
  intros [tl Hl] [tr Hr].
  induction root as [h | l IHl r IHr h]; simpl.
  - eexists; reflexivity.
  - rewrite Hl, Hr.
    destruct (dist_eqb _ _).
    + destruct (key <? _); eexists; reflexivity.
    + destruct (dist_ltb _ _).
      * destruct IHl as [l' ->]. eexists; reflexivity.
      * destruct IHr as [r' ->]. eexists; reflexivity.
Qed.

Lemma Insert_total this key :
  wf this -> exists root, Insert ConcatHash this key = Some (with_root root).
Proof.
  intros [-> | [root ->]].
  - eexists; reflexivity.
  - unfold Insert; cbn [root_ with_root].
    destruct root as [h | l r h].
    + eexists; reflexivity.
    + destruct (Insert_node_total (with_root (Internal l r h)) (Internal l r h) key)
        as [root' Hroot']; [eexists; reflexivity .. |].
      rewrite Hroot'. eexists; reflexivity.
Qed.

(** The leaves after an insert: the new key and the old leaves. *)
Lemma leaves_InsertLeaf h key k :
  In k (leaves (InsertLeaf ConcatHash (Leaf h) key)) <-> k = key \/ k = h.
Proof.
  unfold InsertLeaf; cbn [hash_of].
  destruct (Z.ltb_spec key h); [simpl; intuition congruence |].
  destruct (Z.gtb_spec key h); [simpl; intuition congruence |].
  assert (key = h) by lia. subst. simpl. intuition congruence.
Qed.

Lemma leaves_Insert_node this root key :
  forall root',
    Insert_node ConcatHash this root key = Some root' ->
    forall k, In k (leaves root') <-> k = key \/ In k (leaves root).
Proof.
  induction root as [h | l IHl r IHr h]; intros root' Hins k.
  - simpl in Hins. inversion Hins; subst.
    rewrite leaves_InsertLeaf. simpl. intuition congruence.
  - cbn [Insert_node] in Hins.
    destruct (dist_eqb _ _).
    + destruct (left_ this), (right_ this); try discriminate.
      destruct (key <? _); inversion Hins; subst; simpl; rewrite !in_app_iff;
        simpl; intuition congruence.
    + destruct (dist_ltb _ _).
      * destruct (Insert_node ConcatHash this l key) as [l' |]; [| discriminate].
        inversion Hins; subst. simpl. rewrite !in_app_iff, (IHl l' eq_refl).
        intuition congruence.
      * destruct (Insert_node ConcatHash this r key) as [r' |]; [| discriminate].
        inversion Hins; subst. simpl. rewrite !in_app_iff, (IHr r' eq_refl).
        intuition congruence.
Qed.

Lemma insert_all_app this keys key :
  insert_all ConcatHash this (keys ++ [key]) =
  match insert_all ConcatHash this keys with
  | Some this' => Insert ConcatHash this' key
  | None => None
  end.
Proof.
  revert this. induction keys as [| k keys IH]; intros this; simpl.
  - destruct (Insert ConcatHash this key); reflexivity.
  - destruct (Insert ConcatHash this k); [apply IH | reflexivity].
Qed.

(** C3: the same four keys, inserted in two orders into empty indexes,
    give trees of different structure, whatever the digest computes. *)
Theorem insert_order_changes_shape :
  Permutation [4; 17; 26; 31] [4; 26; 31; 17] /\
  exists t1 t2,
    insert_all ConcatHash empty [4; 17; 26; 31] = Some t1 /\
    insert_all ConcatHash empty [4; 26; 31; 17] = Some t2 /\
    index_shape t1 <> index_shape t2.
Proof.
  split.
  { apply (Permutation_cons eq_refl).
    apply (Permutation_cons_app [26; 31] [] 17). reflexivity. }
  change [4; 17; 26; 31] with ([4; 17; 26] ++ [31]).
  change [4; 26; 31; 17] with ([4; 26; 31] ++ [17]).
  rewrite !insert_all_app, insert_4_17_26, insert_4_26_31.
  unfold mkInternal; cbn [hash_of].
  destruct (insert_31_after_4_17_26 (ConcatHash 17 26)
              (ConcatHash 4 (ConcatHash 17 26))) as (t1 & E1 & S1).
  destruct (insert_17_after_4_26_31 (ConcatHash 26 31)
              (ConcatHash 4 (ConcatHash 26 31))) as (t2 & E2 & S2).
  exists t1, t2. repeat split; [exact E1 | exact E2 |].
  intros Heq.
  destruct S1 as [S1 | [S1 | S1]], S2 as [S2 | [S2 | S2]];
    rewrite S1, S2 in Heq; discriminate Heq.
Qed.

End MerkleFacts.

(** ** Data blocks *)

Section BlockFacts.

Import DataBlock.

(** Every byte passes the test [char_utf < 1000]. *)
Lemma char_below_1000 (c : ascii) :
  (IDA.of_Z (char_value c) <? 1000)%float = true.
Proof.
  destruct c as [b0 b1 b2 b3 b4 b5 b6 b7].
  destruct b0, b1, b2, b3, b4, b5, b6, b7; vm_compute; reflexivity.
Qed.


Lemma push_chars_total (input : list ascii) :
  forall original,
    push_chars input original =
    inr (original ++ map (fun c => IDA.of_Z (char_value c)) input).
Proof.
  induction input as [| c rest IH]; intros original; simpl.
  - rewrite app_nil_r. reflexivity.
  - rewrite char_below_1000, IH, <- app_assoc. reflexivity.
Qed.

Lemma length_list_ascii (s : string) :
  List.length (list_ascii_of_string s) = String.length s.
Proof. induction s as [| c s IH]; simpl; congruence. Qed.

(** The first constructor, with the loop resolved. *)
Lemma of_string_cases (input : string) (sanity_check : bool) :
  of_string input sanity_check =
    if (40 <? String.length input)%nat
    then inl (runtime_error "Cannot encode, input too large")
    else if sanity_check
         then if sanity_passes (vector_of input)
              then inr (block_of (vector_of input))
              else inl assertion_failed
         else inr (block_of (vector_of input)).
Proof.
  unfold of_string. destruct (40 <? String.length input)%nat; [reflexivity |].
  rewrite push_chars_total. reflexivity.
Qed.





(** C1: the text "hello world" is encoded and passes the sanity check on
    the first ten fragments; decoding the ten fragments 5..14 with their
    indices gives a vector that differs from the padded original (it starts
    3862, -1613, 407, 78, 113 where the original has 104, 101, 108, 108,
    111), and so does the block that the fragment constructor rebuilds from
    them. *)
Theorem decode_of_last_ten_differs :
  of_string "hello world" true = inr (block_of hello_world) /\
  map index_ (skipn 4 (fragments_ (block_of hello_world)))
    = [5; 6; 7; 8; 9; 10; 11; 12; 13; 14] /\
  IDA.vec_eqb (decode_from 4 (block_of hello_world)) hello_world = false /\
  firstn 6 hello_world
    = [104%float; 101%float; 108%float; 108%float; 111%float; 32%float] /\
  firstn 6 (decode_from 4 (block_of hello_world))
    = [3862%float; (-1613)%float; 407%float; 78%float; 113%float; 32%float] /\
  original_ (of_fragments (skipn 4 (fragments_ (block_of hello_world))))
    = decode_from 4 (block_of hello_world).
Proof.
  do 5 (split; [vm_compute; reflexivity |]).
  vm_compute; reflexivity.
Qed.

(** The first ten fragments do give the vector back on this input, and so
    do the ten fragments 2..11. *)
Lemma decode_of_first_ten_agrees :
  IDA.vec_eqb
    (IDA.Decode ida_
       (map fragment_ (firstn 10 (fragments_ (block_of hello_world))))
       [1; 2; 3; 4; 5; 6; 7; 8; 9; 10])
    hello_world = true /\
  IDA.vec_eqb
    (IDA.Decode ida_
       (map fragment_ (firstn 10 (skipn 1 (fragments_ (block_of hello_world)))))
       [2; 3; 4; 5; 6; 7; 8; 9; 10; 11])
    hello_world = true.
Proof. split; vm_compute; reflexivity. Qed.

(** The conversion to [int] behind [abs] leaves the range of [int] on the
    last ten fragments: the largest entry of the matrix of their indices,
    14^9, is above the largest [int], and [abs] returns the smallest one. *)
Lemma abs_out_of_int_range :
  IDA.pow 14 9 = 20661046784%float /\
  IDA.to_int (IDA.pow 14 9) = IDA.int_min /\
  IDA.abs (IDA.pow 14 9) = (-2147483648)%float /\
  IDA.abs (-2.5)%float = 2%float.
Proof. repeat split; vm_compute; reflexivity. Qed.

End BlockFacts.

(** ** Local store *)

Section DatabaseFacts.

Import Database.

Variable ConcatHash : Z -> Z -> Z.

(** An insert of a fresh key into a store whose index is in one of its
    regular states goes through and binds the fragment. *)
Lemma Insert_fresh db key frag :
  CSMerkle.wf (index_ db) -> data_ db !! key = None ->
  exists db',
    Insert ConcatHash (key, frag) db = (inr tt, db') /\
    data_ db' = <[key := frag]> (data_ db) /\
    CSMerkle.wf (index_ db').
Proof.
  intros Hwf Hnone. unfold Insert; cbn [fst snd].
  rewrite Hnone.
  destruct (Insert_total ConcatHash _ key Hwf) as [root Hroot].
  rewrite Hroot. eexists; split; [reflexivity |]. cbn [data_ index_].
  split.
  - unfold map_insert. rewrite Hnone. reflexivity.
  - right. exists root. reflexivity.
Qed.

(** What does hold after every run of operations: the index is in a regular
    state and every key of the map is a leaf of the index.  (The converse
    is what a delete breaks, see below.) *)
Lemma run_op_map_in_index o db :
  CSMerkle.wf (index_ db) -> map_in_index db ->
  CSMerkle.wf (index_ (run_op ConcatHash o db)) /\
  map_in_index (run_op ConcatHash o db).
Proof.
  intros Hwf Hinv. destruct o as [key frag | key frag | key]; cbn [run_op].
  - unfold Insert; cbn [fst snd].
    destruct (data_ db !! key) as [old |] eqn:Hold; [split; assumption |].
    destruct (Insert_total ConcatHash _ key Hwf) as [root Hroot].
    rewrite Hroot; cbn [snd index_ data_]. split; [right; eauto |].
    intros k Hk. unfold index_keys; cbn [index_ CSMerkle.root_ CSMerkle.with_root].
    unfold CSMerkle.Insert in Hroot.
    destruct (CSMerkle.root_ (index_ db)) as [old_root |] eqn:Hr.
    + destruct (CSMerkle.Insert_node ConcatHash (index_ db) old_root key)
        as [root' |] eqn:Hnode; [| discriminate].
      assert (root' = root) as -> by (injection Hroot; intros; congruence).
      apply (leaves_Insert_node ConcatHash _ _ _ _ Hnode).
      cbn [data_] in Hk. unfold map_insert in Hk. rewrite Hold in Hk.
      destruct (decide (k = key)) as [-> | Hne]; [left; reflexivity | right].
      rewrite lookup_insert_ne in Hk by congruence.
      specialize (Hinv k Hk). unfold index_keys in Hinv. rewrite Hr in Hinv.
      exact Hinv.
    + assert (root = CSMerkle.Leaf key) as -> by (injection Hroot; intros; congruence).
      cbn [data_] in Hk. unfold map_insert in Hk. rewrite Hold in Hk.
      destruct (decide (k = key)) as [-> | Hne]; [left; reflexivity |].
      rewrite lookup_insert_ne in Hk by congruence.
      specialize (Hinv k Hk). unfold index_keys in Hinv. rewrite Hr in Hinv.
      destruct Hinv.
  - unfold Update; cbn [fst snd].
    destruct (data_ db !! key) as [old |] eqn:Hold; [| split; assumption].
    cbn [snd index_]. split; [exact Hwf |].
    intros k Hk. unfold index_keys; cbn [index_]. apply Hinv.
    cbn [data_] in Hk.
    destruct (decide (k = key)) as [-> | Hne]; [rewrite Hold; eauto |].
    rewrite lookup_insert_ne in Hk by congruence. exact Hk.
  - unfold Delete.
    destruct (CSMerkle.Contains (index_ db) key); [| split; assumption].
    cbn [snd index_]. split; [exact Hwf |].
    intros k Hk. unfold index_keys; cbn [index_]. apply Hinv.
    cbn [data_] in Hk.
    destruct (decide (k = key)) as [-> | Hne].
    + rewrite lookup_delete_eq in Hk. destruct Hk as [? Hk]; discriminate Hk.
    + rewrite lookup_delete_ne in Hk by congruence. exact Hk.
Qed.

Lemma run_map_in_index ops :
  forall db,
    CSMerkle.wf (index_ db) -> map_in_index db ->
    CSMerkle.wf (index_ (run ConcatHash ops db)) /\
    map_in_index (run ConcatHash ops db).
Proof.
  unfold run.
  induction ops as [| o ops IH]; intros db Hwf Hinv; simpl.
  - split; assumption.
  - destruct (run_op_map_in_index o db Hwf Hinv) as [Hwf' Hinv'].
    apply IH; assumption.
Qed.

(** C10: an insert under a key the map already holds throws and leaves the
    store as it was: the map, with the fragment bound to the key, and the
    index. *)
Theorem Insert_existing_key db key frag :
  is_Some (data_ db !! key) ->
  Insert ConcatHash (key, frag) db
    = (inl (runtime_error "Key already exists in db"), db) /\
  data_ (Insert ConcatHash (key, frag) db).2 = data_ db /\
  index_ (Insert ConcatHash (key, frag) db).2 = index_ db /\
  index_keys (Insert ConcatHash (key, frag) db).2 = index_keys db.
Proof.
  intros [old Hold].
  assert (E : Insert ConcatHash (key, frag) db
              = (inl (runtime_error "Key already exists in db"), db)).
  { unfold Insert; cbn [fst snd]. rewrite Hold. reflexivity. }
  rewrite E. repeat split; reflexivity.
Qed.

(** C4: after an insert and a delete of key 5 the map no longer holds the
    key while the index still does: [Contains] answers true and [Lookup]
    ends in [std::out_of_range]. *)
Theorem Delete_keeps_index_entry (frag : DataFragment) :
  let db1 := (Insert ConcatHash (5, frag) empty).2 in
  let db2 := (Delete 5 db1).2 in
  (Insert ConcatHash (5, frag) empty).1 = inr tt /\
  (Delete 5 db1).1 = inr tt /\
  db2 = run ConcatHash [OpInsert 5 frag; OpDelete 5] empty /\
  data_ db2 !! 5 = None /\
  index_keys db2 = [5] /\
  Contains 5 db2 = true /\
  Lookup 5 db2 = (inl out_of_range, db2).
Proof.
  cbv zeta.
  assert (E1 : Insert ConcatHash (5, frag) empty
               = (inr tt, {| data_ := <[5 := frag]> ∅;
                             index_ := CSMerkle.with_root (CSMerkle.Leaf 5) |})).
  { reflexivity. }
  rewrite E1; cbn [fst snd].
  assert (E2 : Delete 5 {| data_ := <[5 := frag]> ∅;
                           index_ := CSMerkle.with_root (CSMerkle.Leaf 5) |}
               = (inr tt, {| data_ := delete 5 (<[5 := frag]> ∅);
                             index_ := CSMerkle.with_root (CSMerkle.Leaf 5) |})).
  { reflexivity. }
  rewrite E2; cbn [fst snd].
  split; [reflexivity |].
  split; [reflexivity |].
  split.
  { unfold run, run_op; cbn [fold_left]. rewrite E1; cbn [snd]. rewrite E2.
    reflexivity. }
  split; [cbn [data_]; apply lookup_delete_eq |].
  split; [reflexivity |].
  split; [reflexivity |].
  unfold Lookup; cbn [index_ data_].
  change (CSMerkle.Contains (CSMerkle.with_root (CSMerkle.Leaf 5)) 5) with true.
  cbv iota. rewrite lookup_delete_eq. reflexivity.
Qed.

End DatabaseFacts.

(** The insert theorem at a store that holds key 5. *)
Lemma Insert_existing_key_witness :
  let frag := mkFragment [] 1 in
  let db := Database.mk (<[5 := frag]> ∅)
              (CSMerkle.with_root (CSMerkle.Leaf 5)) in
  Database.Insert (fun _ _ => 0) (5, frag) db
    = (inl (runtime_error "Key already exists in db"), db) /\
  Database.data_ (Database.Insert (fun _ _ => 0) (5, frag) db).2
    = Database.data_ db /\
  Database.index_ (Database.Insert (fun _ _ => 0) (5, frag) db).2
    = Database.index_ db /\
  Database.index_keys (Database.Insert (fun _ _ => 0) (5, frag) db).2
    = Database.index_keys db.
Proof.
  apply (Insert_existing_key (fun _ _ => 0)).
  exists (mkFragment [] 1). reflexivity.
Defined.

(** ** Peer: placement and synchronisation *)

Section LoopFacts.

Context {S : Type}.

Lemma fold_left_invariant {A : Type} (P : S -> Prop) (f : S -> A -> S) (l : list A) :
  forall s, P s -> (forall s a, P s -> P (f s a)) -> P (fold_left f l s).
Proof.
  induction l as [| a l IH]; intros s Hs Hstep; simpl.
  - exact Hs.
  - apply IH; [apply Hstep; exact Hs | exact Hstep].
Qed.

Lemma for_range_invariant (P : S -> Prop) lo hi (body : nat -> S -> S) s :
  P s -> (forall i s, P s -> P (body i s)) -> P (for_range lo hi body s).
Proof.
  intros Hs Hstep. unfold for_range.
  apply fold_left_invariant; [exact Hs | intros s' i Hs'; apply Hstep, Hs'].
Qed.

End LoopFacts.

Section BlockShape.

Import DataBlock.

Lemma set2_length m i j x : List.length (IDA.set2 m i j x) = List.length m.
Proof. unfold IDA.set2. apply length_insert. Qed.

(** [Encode] returns [n_] rows, whatever the message. *)
Lemma Encode_length ida message :
  List.length (IDA.Encode ida message) = IDA.n_ ida.
Proof.
  unfold IDA.Encode.
  apply for_range_invariant.
  - unfold IDA.zeros2. apply repeat_length.
  - intros i c Hc.
    apply for_range_invariant; [exact Hc |]. intros j c' Hc'.
    apply for_range_invariant; [exact Hc' |]. intros k c'' Hc''.
    rewrite set2_length. exact Hc''.
Qed.

Lemma for_range_app_length {A : Type} (f : nat -> A) lo hi (acc : list A) :
  List.length (for_range lo hi (fun i l => l ++ [f i]) acc)
  = (List.length acc + (hi - lo))%nat.
Proof.
  unfold for_range.
  assert (H : forall (l : list nat) (acc : list A),
             List.length (fold_left (fun s i => (fun i l => l ++ [f i]) i s) l acc)
             = (List.length acc + List.length l)%nat).
  { induction l as [| i l IH]; intros acc'; simpl.
    - lia.
    - rewrite IH, length_app. simpl. lia. }
  rewrite H, length_seq. reflexivity.
Qed.

Lemma FragsFromMatrix_length matrix :
  List.length (FragsFromMatrix matrix) = List.length matrix.
Proof.
  unfold FragsFromMatrix.
  etransitivity; [apply for_range_app_length | simpl; lia].
Qed.

(** A block has fourteen fragments. *)
Lemma block_of_fragments original :
  List.length (fragments_ (block_of original)) = 14%nat.
Proof.
  unfold block_of; cbn [fragments_].
  rewrite FragsFromMatrix_length, Encode_length. reflexivity.
Qed.

Lemma of_string_fragments value sanity_check block :
  of_string value sanity_check = inr block ->
  List.length (fragments_ block) = 14%nat.
Proof.
  rewrite of_string_cases.
  destruct (40 <? String.length value)%nat; [discriminate |].
  destruct sanity_check; [destruct (sanity_passes _) |];
    intros E; inversion E; apply block_of_fragments.
Qed.

End BlockShape.

Section PeerFacts.

Import Peer.

Variable ConcatHash : Z -> Z -> Z.
Variable forward_get_succ : Z -> result PeerRepr.
Variable send_create_frag : PeerRepr -> Z -> DataFragment -> result bool.
Variable send_read_frag : PeerRepr -> Z -> result DataFragment.
Variable sample : list DataFragment -> list DataFragment.

(** With fewer successors than fragments left to place, the placement loop
    ends in an exception: that of an earlier step or, at the end of the
    list, [std::out_of_range]. *)
Lemma place_short key succ_list fragments :
  forall i num_replicas st,
    (i <= List.length succ_list < i + List.length fragments)%nat ->
    exists e st',
      place ConcatHash send_create_frag key succ_list fragments i num_replicas st
      = (inl e, st').
Proof.
  induction fragments as [| fragment rest IH]; intros i num_replicas st Hlen.
  - simpl in Hlen. lia.
  - cbn [place].
    destruct (nth_error succ_list i) as [succ |] eqn:Hnth.
    + assert (Hrest : (S i <= List.length succ_list < S i + List.length rest)%nat).
      { assert (i < List.length succ_list)%nat
          by (apply nth_error_Some; rewrite Hnth; discriminate).
        simpl in Hlen. lia. }
      destruct (id_ succ =? id_ (repr st)).
      * unfold andthen.
        destruct (on_database _ st) as [[e | []] st1].
        -- eexists _, _; reflexivity.
        -- apply IH, Hrest.
      * unfold andthen.
        destruct (CreateFragment send_create_frag succ key fragment st)
          as [[e | stored] st1].
        -- eexists _, _; reflexivity.
        -- apply IH, Hrest.
    + eexists _, _; reflexivity.
Qed.

(** With all successors on the list and no failing step, the exception is
    [std::out_of_range]: a list of ten to thirteen successors passes the
    guard, and [Create] returns no boolean. *)
Lemma Create_short_list key value st st1 succ_list :
  GetNSuccessors forward_get_succ key NUM_REPLICAS st = (inr succ_list, st1) ->
  (10 <= List.length succ_list < 14)%nat ->
  exists e st',
    Create ConcatHash forward_get_succ send_create_frag key value st
    = (inl e, st').
Proof.
  intros Hsucc Hlen. unfold Create, andthen, lift.
  destruct (DataBlock.of_string value true) as [e | block] eqn:Hblock.
  - eexists _, _; reflexivity.
  - rewrite Hsucc.
    destruct (Nat.ltb_spec (List.length succ_list) 10) as [Hlt | _]; [lia |].
    pose proof (of_string_fragments _ _ _ Hblock) as H14.
    destruct (place_short key succ_list (DataBlock.fragments_ block) 0 0 st1)
      as (e & st' & ->); [lia |].
    eexists _, _; reflexivity.
Qed.

(** The reply under construction has no [KEYS]: the subscript adds the
    member as null, and a loop over null visits nothing. *)
Lemma fresh_reply_has_no_keys :
  Json.subscript (Json.assign Json.Null "SUCCESS" (Json.Bool true)) "KEYS"
  = (Json.Null,
     Json.Object [("SUCCESS"%string, Json.Bool true); ("KEYS"%string, Json.Null)])
  /\ Json.iterate Json.Null = [].
Proof. split; reflexivity. Qed.

Lemma retrieve_all_nil st :
  retrieve_all ConcatHash forward_get_succ send_read_frag sample [] st
  = (inr tt, st).
Proof. reflexivity. Qed.

(** C5: whatever the request announces and whatever the store holds, the
    handler retrieves nothing: it visits the [KEYS] of its own fresh reply,
    writes its one log line and returns, the store as it was. *)
Theorem SynchronizeHandler_retrieves_nothing request st :
  SynchronizeHandler ConcatHash forward_get_succ send_read_frag sample request st
  = (inr (Json.Object [("SUCCESS"%string, Json.Bool true);
                       ("KEYS"%string, Json.Null)]),
     {| repr := repr st; database_ := database_ st;
        current_client_id_ := current_client_id_ st;
        log_ := log_ st ++ ["Synchronize handler"%string] |}).
Proof.
  destruct fresh_reply_has_no_keys as [Hkeys Hnone].
  unfold SynchronizeHandler, andthen at 1, Log.
  rewrite Hkeys, Hnone.
  unfold andthen, lift; cbn [collect_keys].
  rewrite retrieve_all_nil. reflexivity.
Qed.

End PeerFacts.

(** On the ring of fifteen peers whose first ten hold the fragments of
    "val" under the key 1f, the peer 1500 holds nothing.  The handler as
    the design words it retrieves the announced key and stores a fragment;
    the handler of the code leaves the store empty. *)
Lemma SynchronizeHandler_announced_key_not_retrieved :
  let st := Ring.start Ring.fifteen 1500 in
  let worded :=
    Peer.SynchronizeHandler_spec (fun _ _ => 0)
      (Ring.forward_get_succ Ring.fifteen) Ring.hold_val Ring.draw_first
      Ring.announce_1f st in
  let coded :=
    Peer.SynchronizeHandler (fun _ _ => 0)
      (Ring.forward_get_succ Ring.fifteen) Ring.hold_val Ring.draw_first
      Ring.announce_1f st in
  Database.Contains 31 (Peer.database_ st) = false /\
  Peer.log_ worded.2
    = ["Synchronize handler"; "Retrieving missing key 1f"]%string /\
  Database.Contains 31 (Peer.database_ worded.2) = true /\
  Peer.log_ coded.2 = ["Synchronize handler"%string] /\
  Database.Contains 31 (Peer.database_ coded.2) = false.
Proof.
  cbv zeta.
  do 4 (split; [vm_compute; reflexivity |]).
  vm_compute; reflexivity.
Qed.

(** C9: on a ring of eleven peers, for a key that is the id of one of them,
    the successor walk stops after twelve entries; the list passes the
    guard of [Create], and the placement loop ends in [std::out_of_range]
    at index 12, after the local fragment was stored. *)
Theorem Create_raises_out_of_range :
  let st := Ring.start Ring.eleven 100 in
  let walk :=
    Peer.GetNSuccessors (Ring.forward_get_succ Ring.eleven) 300
      Peer.NUM_REPLICAS st in
  let created :=
    Peer.Create (fun _ _ => 0) (Ring.forward_get_succ Ring.eleven)
      Ring.accept_all 300 "val" st in
  match walk.1 with
  | inr succ_list =>
      map id_ succ_list
      = [400; 500; 600; 700; 800; 900; 1000; 1100; 100; 200; 300; 400]
  | inl _ => False
  end /\
  created.1 = inl out_of_range /\
  Database.Contains 300 (Peer.database_ created.2) = true.
Proof.
  cbv zeta.
  split; [vm_compute; reflexivity |].
  split; vm_compute; reflexivity.
Qed.

(** A key that is no peer's id gets fourteen successors on the same ring,
    and [Create] returns true. *)
Lemma Create_returns_on_other_key :
  (Peer.Create (fun _ _ => 0) (Ring.forward_get_succ Ring.eleven)
     Ring.accept_all 301 "val" (Ring.start Ring.eleven 100)).1 = inr true.
Proof. vm_compute. reflexivity. Qed.

(** * Further properties *)

(** ** Keys: text form and arithmetic *)

Section KeyText.

Import Key.

Lemma hex_value_hex_char d :
  0 <= d < 16 -> hex_value (hex_char d) = Some d.
Proof.
  intros Hd.
  assert (Hn : exists n, (n < 16)%nat /\ d = Z.of_nat n).
  { exists (Z.to_nat d). lia. }
  destruct Hn as (n & Hn & ->).
  do 16 (destruct n as [| n]; [reflexivity |]). lia.
Qed.

Lemma wrap256_small v : 0 <= v < uint256_mod -> wrap256 v = v.
Proof. intros H. apply Z.mod_small, H. Qed.

(** Reading back what [hex_digits] wrote in front of [acc]. *)
Lemma parse_hex_digits (fuel : nat) :
  forall v acc,
    0 <= v < 16 ^ Z.of_nat fuel -> v < uint256_mod ->
    parse_hex (hex_digits fuel v acc) 0 = parse_hex acc v.
Proof.
  induction fuel as [| fuel IH]; intros v acc Hv Hmax.
  - change (16 ^ Z.of_nat 0) with 1 in Hv.
    assert (v = 0) by lia. subst. reflexivity.
  - cbn [hex_digits].
    destruct (Z.ltb_spec v 16) as [Hsmall | Hbig].
    + cbn [parse_hex]. rewrite hex_value_hex_char by lia.
      rewrite wrap256_small by (unfold uint256_mod in *; lia).
      f_equal.
    + rewrite Nat2Z.inj_succ, Z.pow_succ_r in Hv by lia.
      rewrite IH.
      * cbn [parse_hex].
        rewrite hex_value_hex_char by (apply Z.mod_pos_bound; lia).
        rewrite <- Z.div_mod by lia.
        rewrite wrap256_small by lia. reflexivity.
      * split; [apply Z.div_pos; lia | apply Z.div_lt_upper_bound; lia].
      * assert (v / 16 <= v) by (apply Z.div_le_upper_bound; lia). lia.
Qed.

(** X1: a key read back from its hexadecimal text is the key. *)
Theorem of_hex_IntToHexStr v :
  0 <= v < uint256_mod -> of_hex (IntToHexStr v) = Some v.
Proof.
  intros Hv. unfold of_hex, IntToHexStr.
  rewrite parse_hex_digits; [reflexivity | | lia].
  change (16 ^ Z.of_nat 64) with uint256_mod. exact Hv.
Qed.

Lemma of_hex_IntToHexStr_witness :
  of_hex (IntToHexStr 0xb72f1bcde22957e2bb24d01077785f16)
  = Some 0xb72f1bcde22957e2bb24d01077785f16.
Proof.
  apply (of_hex_IntToHexStr 0xb72f1bcde22957e2bb24d01077785f16).
  unfold uint256_mod. lia.
Defined.

(** X2: subtracting what was added gives the key back, also across the
    wrap at 2^256. *)
Theorem sub_add key number :
  0 <= key < uint256_mod -> sub (add key number) number = key.
Proof.
  intros Hk. unfold sub, add, wrap256.
  rewrite Zminus_mod_idemp_l.
  replace (key + number mod uint256_mod - number mod uint256_mod) with key by lia.
  apply Z.mod_small, Hk.
Qed.

Lemma sub_add_witness :
  sub (add (2 ^ 256 - 1) 1) 1 = 2 ^ 256 - 1.
Proof. apply (sub_add (2 ^ 256 - 1) 1). unfold uint256_mod. lia. Defined.

(** The whole ring: with the lower bound one past the upper bound, every
    key is between them. *)
Lemma InBetween_whole_ring key id :
  in_ring id -> InBetween key (add id 1) id true = true.
Proof.
  intros Hid. unfold in_ring in Hid.
  assert (HR : keys_in_ring = 2 ^ 128) by reflexivity.
  assert (Hadd : add id 1 = id + 1).
  { unfold add, wrap256, uint256_mod. change (1 mod 2 ^ 256) with 1.
    apply Z.mod_small. lia. }
  rewrite Hadd. unfold InBetween.
  destruct (Z.eqb_spec (id + 1) id); [lia |].
  destruct (Z.ltb_spec (id + 1) id); [lia |].
  rewrite (Z.mod_small id) by lia.
  pose proof (Z.mod_pos_bound key keys_in_ring ltac:(lia)) as Hk.
  destruct (Z.ltb_spec id (key mod keys_in_ring)); [| reflexivity].
  destruct (Z.ltb_spec (key mod keys_in_ring) ((id + 1) mod keys_in_ring));
    [| reflexivity].
  exfalso.
  destruct (Z.eq_dec (id + 1) keys_in_ring) as [E | NE].
  - rewrite E, Z.mod_same in * by lia. lia.
  - rewrite (Z.mod_small (id + 1)) in * by lia. lia.
Qed.

End KeyText.

(** ** Finger ranges and the finger table *)

Section FingerRanges.

Import FingerTable.

(** X3: the ranges follow one another: one past the upper bound of range
    [n] (in 256-bit arithmetic) is the lower bound of range [n + 1], for
    every starting key. *)
Theorem GetNthRange_adjacent ft n :
  0 <= n ->
  Key.wrap256 ((GetNthRange ft n).2 + 1) = (GetNthRange ft (n + 1)).1.
Proof.
  intros _. unfold GetNthRange; cbn [fst snd]. unfold Key.wrap256.
  rewrite Zplus_mod_idemp_l.
  replace (((starting_key_ ft + 2 ^ (n + 1)) mod keys_in_chord_ ft)
             mod Key.uint256_mod - 1 + 1)
    with (((starting_key_ ft + 2 ^ (n + 1)) mod keys_in_chord_ ft)
            mod Key.uint256_mod) by lia.
  apply Z.mod_mod. unfold Key.uint256_mod. lia.
Qed.

Lemma GetNthRange_adjacent_witness :
  Key.wrap256
    ((GetNthRange (FingerTable 0x3f10dbe84cbd5e319b1faf0cb9dda9cf) 126).2 + 1)
  = (GetNthRange (FingerTable 0x3f10dbe84cbd5e319b1faf0cb9dda9cf) (126 + 1)).1.
Proof.
  apply (GetNthRange_adjacent (FingerTable 0x3f10dbe84cbd5e319b1faf0cb9dda9cf) 126).
  lia.
Defined.

(** X4: for a starting key that prints with all 32 digits, the range of
    index [i] lies on the ring and holds exactly [2^i] keys (unless its end
    is the last key of the ring, where the upper bound wraps in 256 bits). *)
Theorem GetNthRange_size start i :
  16 ^ 31 <= start < 16 ^ 32 -> 0 <= i <= 127 ->
  (start + 2 ^ (i + 1)) mod Key.keys_in_ring <> 0 ->
  Key.in_ring (GetNthRange (FingerTable start) i).1 /\
  Key.in_ring (GetNthRange (FingerTable start) i).2 /\
  ((GetNthRange (FingerTable start) i).2
   - (GetNthRange (FingerTable start) i).1 + 1) mod Key.keys_in_ring = 2 ^ i.
Proof.
  intros Hs Hi Hnz.
  rewrite (GetNthRange_full_width start i Hs Hi Hnz).
  unfold GetNthRange_spec, Key.in_ring; cbn [fst snd].
  assert (HR : 0 < Key.keys_in_ring) by reflexivity.
  split; [apply Z.mod_pos_bound, HR |].
  split; [apply Z.mod_pos_bound, HR |].
  rewrite <- Zplus_mod_idemp_l, <- Zminus_mod, Zplus_mod_idemp_l.
  replace (start + 2 ^ (i + 1) - 1 - (start + 2 ^ i) + 1) with (2 ^ i)
    by (rewrite Z.pow_add_r by lia; lia).
  apply Z.mod_small. split; [apply Z.pow_nonneg; lia |].
  unfold Key.keys_in_ring. change (16 ^ 32) with (2 ^ 128).
  apply Z.pow_lt_mono_r; lia.
Qed.

Lemma GetNthRange_size_witness :
  let ft := FingerTable 0x3f10dbe84cbd5e319b1faf0cb9dda9cf in
  Key.in_ring (GetNthRange ft 127).1 /\
  Key.in_ring (GetNthRange ft 127).2 /\
  ((GetNthRange ft 127).2 - (GetNthRange ft 127).1 + 1) mod Key.keys_in_ring
  = 2 ^ 127.
Proof.
  cbv zeta.
  apply (GetNthRange_size 0x3f10dbe84cbd5e319b1faf0cb9dda9cf 127).
  - lia.
  - lia.
  - vm_compute. discriminate.
Defined.

End FingerRanges.

Section FingerTableFacts.

Import Fingers.

Lemma Lookup_first_holding key table_ :
  Lookup key table_ =
  match first_holding key table_ with
  | Some finger => inr (successor_ finger)
  | None => inl (runtime_error "Key not found")
  end.
Proof.
  induction table_ as [| finger rest IH]; simpl; [reflexivity |].
  destruct (Key.InBetween key _ _ true); [reflexivity | exact IH].
Qed.

(** X5: adjusting the fingers to a new peer leaves the length and the
    ranges of the table as they are, and a lookup afterwards fails exactly
    when it failed before; where it succeeds it answers the new peer if the
    lower bound of the first finger that holds the key lies in the range of
    the new peer, and the successor that finger had otherwise. *)
Theorem Lookup_AdjustFingers key new_peer table_ :
  List.length (AdjustFingers new_peer table_) = List.length table_ /\
  map lower_bound_ (AdjustFingers new_peer table_) = map lower_bound_ table_ /\
  map upper_bound_ (AdjustFingers new_peer table_) = map upper_bound_ table_ /\
  Lookup key (AdjustFingers new_peer table_) =
  match first_holding key table_ with
  | Some finger =>
      inr (if Key.InBetween (lower_bound_ finger) (min_key_ new_peer)
                (max_key_ new_peer) true
           then new_peer else successor_ finger)
  | None => inl (runtime_error "Key not found")
  end.
Proof.
  induction table_ as [| finger rest (IHlen & IHlo & IHup & IHlook)].
  - repeat split; reflexivity.
  - cbn [AdjustFingers List.length map Lookup first_holding].
    split; [f_equal; exact IHlen |].
    split; [f_equal; [destruct (Key.InBetween _ _ _ true); reflexivity | exact IHlo] |].
    split; [f_equal; [destruct (Key.InBetween _ _ _ true); reflexivity | exact IHup] |].
    destruct (Key.InBetween (lower_bound_ finger) _ _ true) eqn:Hadj;
      cbn [lower_bound_ upper_bound_ successor_ with_successor];
      destruct (Key.InBetween key (lower_bound_ finger) (upper_bound_ finger) true);
      try rewrite Hadj; try reflexivity; exact IHlook.
Qed.

Lemma nth_error_lookup {A : Type} (l : list A) :
  forall i, nth_error l i = l !! i.
Proof.
  induction l as [| x l IH]; intros [| i]; simpl; try reflexivity. apply IH.
Qed.

Lemma vector_at_inr {A : Type} (v : list A) n x :
  vector_at v n = inr x <-> 0 <= n /\ nth_error v (Z.to_nat n) = Some x.
Proof.
  unfold vector_at. destruct (Z.ltb_spec n 0).
  - split; [discriminate | lia].
  - destruct (nth_error v (Z.to_nat n)) as [y |]; split.
    + intros E. inversion E. split; [lia | reflexivity].
    + intros [_ E]. congruence.
    + discriminate.
    + intros [_ E]. discriminate.
Qed.

Lemma vector_at_out {A : Type} (v : list A) n :
  vector_at v n = inl out_of_range <-> n < 0 \/ Z.of_nat (List.length v) <= n.
Proof.
  unfold vector_at. destruct (Z.ltb_spec n 0) as [Hneg | Hpos].
  - split; [intros _; left; exact Hneg | reflexivity].
  - destruct (nth_error v (Z.to_nat n)) as [x |] eqn:Hnth.
    + split; [discriminate |].
      intros [Hn | Hn]; [lia |].
      assert (Z.to_nat n < List.length v)%nat
        by (apply nth_error_Some; rewrite Hnth; discriminate).
      lia.
    + split; [| reflexivity]. intros _. right.
      apply nth_error_None in Hnth. lia.
Qed.

(** X6: editing the successor of the n-th finger throws [std::out_of_range]
    exactly for an index that is negative or not below the size; otherwise
    the entry read back at [n] has the new successor and its old bounds,
    and every other entry reads as before. *)
Theorem EditNthFinger_GetNthEntry n succ table_ :
  (EditNthFinger n succ table_ = inl out_of_range <->
   n < 0 \/ Z.of_nat (List.length table_) <= n) /\
  forall table', EditNthFinger n succ table_ = inr table' ->
    List.length table' = List.length table_ /\
    (exists old, GetNthEntry n table_ = inr old /\
                 GetNthEntry n table' = inr (with_successor succ old)) /\
    forall m, m <> n -> GetNthEntry m table' = GetNthEntry m table_.
Proof.
  split.
  - rewrite <- vector_at_out. unfold EditNthFinger.
    destruct (vector_at table_ n) as [e | finger]; split; congruence.
  - intros table' Hedit. unfold EditNthFinger in Hedit.
    destruct (vector_at table_ n) as [e | finger] eqn:Hat; [discriminate |].
    inversion Hedit; subst table'; clear Hedit.
    apply vector_at_inr in Hat as [Hn Hnth].
    assert (Hlt : (Z.to_nat n < List.length table_)%nat)
      by (apply nth_error_Some; rewrite Hnth; discriminate).
    split; [apply length_insert |].
    split.
    + exists finger. unfold GetNthEntry. split.
      * apply vector_at_inr. split; [exact Hn | exact Hnth].
      * apply vector_at_inr. split; [exact Hn |].
        rewrite nth_error_lookup. unfold table in *.
        apply list_lookup_insert_eq. exact Hlt.
    + intros m Hm. unfold GetNthEntry, vector_at.
      destruct (Z.ltb_spec m 0); [reflexivity |].
      rewrite !nth_error_lookup. unfold table in *.
      rewrite list_lookup_insert_ne by lia. reflexivity.
Qed.

Lemma EditNthFinger_GetNthEntry_witness :
  let p := mkPeerRepr 100 1 100 "127.0.0.1" 5100 in
  let q := mkPeerRepr 200 101 200 "127.0.0.1" 5200 in
  let table_ := [mkFinger 1 1 p; mkFinger 2 3 p] in
  let table' := [mkFinger 1 1 p; mkFinger 2 3 q] in
  List.length table' = List.length table_ /\
  (exists old, GetNthEntry 1 table_ = inr old /\
               GetNthEntry 1 table' = inr (with_successor q old)) /\
  forall m, m <> 1 -> GetNthEntry m table' = GetNthEntry m table_.
Proof.
  cbv zeta.
  apply (proj2 (EditNthFinger_GetNthEntry 1
                  (mkPeerRepr 200 101 200 "127.0.0.1" 5200)
                  [mkFinger 1 1 (mkPeerRepr 100 1 100 "127.0.0.1" 5100);
                   mkFinger 2 3 (mkPeerRepr 100 1 100 "127.0.0.1" 5100)])).
  reflexivity.
Defined.

End FingerTableFacts.

(** ** The successor list *)

Section PeerListFacts.

Import PeerList.

Lemma find_position_bound new_id :
  forall rest previous_key pos found,
    find_position new_id previous_key rest pos = Some (Some found) ->
    (pos <= found < pos + List.length rest)%nat.
Proof.
  induction rest as [| it rest IH]; intros previous_key pos found Hfind;
    simpl in Hfind.
  - discriminate.
  - destruct (new_id =? id_ it); [discriminate |].
    destruct (Key.InBetween new_id previous_key (id_ it) true).
    + inversion Hfind; subst. simpl. lia.
    + apply IH in Hfind. simpl. lia.
Qed.

Lemma In_removelast_not_last {A : Type} (x : A) (l1 l2 : list A) :
  l2 <> [] -> In x (removelast (l1 ++ x :: l2)).
Proof.
  intros Hne.
  replace (l1 ++ x :: l2) with ((l1 ++ [x]) ++ l2)
    by (rewrite <- app_assoc; reflexivity).
  rewrite removelast_app by exact Hne.
  apply in_or_app. left. apply in_or_app. right. left. reflexivity.
Qed.

Lemma length_removelast {A : Type} (l : list A) :
  List.length (removelast l) = (List.length l - 1)%nat.
Proof.
  induction l as [| x [| y l] IH]; simpl in *; try reflexivity. lia.
Qed.

(** X7: what [Insert] answers and does.  On [false] the list is as it was;
    on [true] the new peer is in the list; and a list that respects the
    maximum (at least one entry allowed) respects it afterwards. *)
Theorem Insert_outcome new_peer this :
  ((Insert new_peer this).1 = false -> (Insert new_peer this).2 = this) /\
  ((Insert new_peer this).1 = true ->
   In new_peer (peers_ (Insert new_peer this).2)) /\
  (1 <= as_size (max_entries_ this) ->
   Z.of_nat (List.length (peers_ this)) <= as_size (max_entries_ this) ->
   Z.of_nat (List.length (peers_ (Insert new_peer this).2))
   <= as_size (max_entries_ this)) /\
  max_entries_ (Insert new_peer this).2 = max_entries_ this.
Proof.
  unfold Insert.
  destruct (peers_ this) as [| first others] eqn:Hpeers.
  - cbn [fst snd peers_ max_entries_].
    split; [discriminate |]. split; [intros _; left; reflexivity |].
    split; [intros Hmax _; simpl; lia | reflexivity].
  - remember (first :: others) as peers eqn:Heqpeers.
    destruct (find_position (id_ new_peer) _ peers 0) as [[found |] |] eqn:Hfind.
    + (* a place was found *)
      apply find_position_bound in Hfind.
      assert (Hsplit : skipn found peers <> []).
      { intros Hnil. apply (f_equal (@List.length _)) in Hnil.
        rewrite length_skipn in Hnil. cbn [List.length] in Hnil. lia. }
      assert (Hlen : List.length (insert_at found new_peer peers)
                     = S (List.length peers)).
      { unfold insert_at. rewrite length_app. simpl.
        rewrite length_firstn, length_skipn. lia. }
      cbn [fst snd peers_ max_entries_].
      split; [discriminate |]. split; [| split; [| reflexivity]].
      * intros _.
        destruct (as_size (max_entries_ this) <? _).
        -- unfold pop_back, insert_at. apply In_removelast_not_last, Hsplit.
        -- unfold insert_at. apply in_or_app. right. left. reflexivity.
      * intros Hmax Hsize.
        destruct (Z.ltb_spec (as_size (max_entries_ this))
                    (Z.of_nat (List.length (insert_at found new_peer peers)))).
        -- unfold pop_back. rewrite length_removelast, Hlen. lia.
        -- lia.
    + (* no place *)
      destruct (Z.ltb_spec (Z.of_nat (List.length peers))
                  (as_size (max_entries_ this)));
        cbn [fst snd peers_ max_entries_].
      * split; [discriminate |].
        split; [intros _; apply in_or_app; right; left; reflexivity |].
        split; [| reflexivity].
        intros _ _. rewrite length_app. simpl. lia.
      * split; [reflexivity |]. split; [discriminate |].
        split; [| reflexivity]. intros _ Hsize. rewrite Hpeers. exact Hsize.
    + (* the id is in the list already *)
      cbn [fst snd].
      split; [reflexivity |]. split; [discriminate |].
      split; [| reflexivity]. intros _ Hsize. rewrite Hpeers. exact Hsize.
Qed.

Lemma Insert_outcome_witness :
  let p := mkPeerRepr 100 1 100 "127.0.0.1" 5100 in
  let q := mkPeerRepr 200 101 200 "127.0.0.1" 5200 in
  let this := PeerList.mk 14 [p] in
  In q (peers_ (Insert q this).2) /\
  Z.of_nat (List.length (peers_ (Insert q this).2)) <= as_size (max_entries_ this).
Proof.
  cbv zeta.
  pose proof (Insert_outcome (mkPeerRepr 200 101 200 "127.0.0.1" 5200)
                (PeerList.mk 14 [mkPeerRepr 100 1 100 "127.0.0.1" 5100]))
    as (_ & Hin & Hsize & _).
  split.
  - apply Hin. reflexivity.
  - apply Hsize; vm_compute; discriminate.
Defined.

(** X8: a peer whose id is that of the last entry is not turned away when
    the first entry has another id: the walk starts from the last id, finds
    the new id between it and the first one, and the peer goes to the front
    of the list, which then holds the id twice. *)
Theorem Insert_same_id_as_last new_peer this :
  peers_ this <> [] ->
  id_ (List.last (peers_ this) new_peer) = id_ new_peer ->
  id_ (hd new_peer (peers_ this)) <> id_ new_peer ->
  Key.in_ring (id_ new_peer) ->
  Key.in_ring (id_ (hd new_peer (peers_ this))) ->
  Z.of_nat (List.length (peers_ this)) < as_size (max_entries_ this) ->
  Insert new_peer this
  = (true, {| max_entries_ := max_entries_ this;
              peers_ := new_peer :: peers_ this |}).
Proof.
  intros Hne Hlast Hfirst Hring Hring1 Hsize. unfold Insert.
  destruct (peers_ this) as [| first others] eqn:Hpeers; [congruence |].
  cbn [hd] in Hfirst, Hring1. rewrite Hlast.
  cbn [find_position].
  destruct (Z.eqb_spec (id_ new_peer) (id_ first)) as [E | _]; [congruence |].
  rewrite InBetween_in_ring by assumption.
  destruct (Z.eqb_spec (id_ new_peer) (id_ first)) as [E | _]; [congruence |].
  assert (Hin : (if id_ new_peer <? id_ first
                 then (id_ new_peer <=? id_ new_peer) && (id_ new_peer <=? id_ first)
                 else negb ((id_ first <? id_ new_peer) && (id_ new_peer <? id_ new_peer)))
                = true).
  { destruct (Z.ltb_spec (id_ new_peer) (id_ first)).
    - rewrite Z.leb_refl. apply Z.leb_le. lia.
    - rewrite Z.ltb_irrefl, andb_false_r. reflexivity. }
  rewrite Hin. unfold insert_at; cbn [firstn skipn app].
  destruct (Z.ltb_spec (as_size (max_entries_ this))
              (Z.of_nat (List.length (new_peer :: first :: others)))) as [Hbig | _].
  - cbn [List.length] in *. lia.
  - reflexivity.
Qed.

Lemma Insert_same_id_as_last_witness :
  let p := mkPeerRepr 100 1 100 "127.0.0.1" 5100 in
  let q := mkPeerRepr 200 101 200 "127.0.0.1" 5200 in
  Insert q (PeerList.mk 14 [p; q])
  = (true, PeerList.mk 14 [q; p; q]).
Proof.
  cbv zeta.
  apply (Insert_same_id_as_last (mkPeerRepr 200 101 200 "127.0.0.1" 5200)
           (PeerList.mk 14 [mkPeerRepr 100 1 100 "127.0.0.1" 5100;
                            mkPeerRepr 200 101 200 "127.0.0.1" 5200])).
  - discriminate.
  - reflexivity.
  - simpl. lia.
  - simpl. unfold Key.in_ring, Key.keys_in_ring. lia.
  - simpl. unfold Key.in_ring, Key.keys_in_ring. lia.
  - vm_compute. reflexivity.
Defined.

End PeerListFacts.

(** ** The Merkle index: keys held, membership, deletion *)

Section MerkleKeys.

Import CSMerkle.

Variable ConcatHash : Z -> Z -> Z.

(** X9: on an index in a regular state an insert goes through (no null
    [left_] or [right_] is read), leaves the index in a regular state, and
    the keys held afterwards are the new key and the keys held before. *)
Theorem Insert_keys this key :
  wf this ->
  exists this',
    Insert ConcatHash this key = Some this' /\ wf this' /\
    forall k, In k (keys this') <-> k = key \/ In k (keys this).
Proof.
  intros Hwf.
  destruct (Insert_total ConcatHash this key Hwf) as [root' Hins].
  exists (with_root root'). split; [exact Hins |].
  split; [right; exists root'; reflexivity |].
  intros k. unfold keys at 1; cbn [root_ with_root].
  unfold Insert in Hins. unfold keys.
  destruct (root_ this) as [root |].
  - destruct (Insert_node ConcatHash this root key) as [root'' |] eqn:Hnode;
      [| discriminate].
    assert (root'' = root') as -> by (injection Hins; intros; congruence).
    apply (leaves_Insert_node ConcatHash _ _ _ _ Hnode).
  - assert (root' = Leaf key) as -> by (injection Hins; intros; congruence).
    simpl. intuition congruence.
Qed.

Lemma Contains_node_sound root key :
  Contains_node root key = true -> In key (leaves root).
Proof.
  induction root as [h | l IHl r IHr h]; simpl.
  - intros H. apply Z.eqb_eq in H. left. exact H.
  - intros H. apply in_or_app.
    destruct (IsLeaf l && (hash_of l =? key)) eqn:Hl.
    + apply andb_true_iff in Hl as [Hleaf Heq]. apply Z.eqb_eq in Heq.
      destruct l; [| discriminate]. left. left. exact Heq.
    + destruct (IsLeaf r && (hash_of r =? key)) eqn:Hr.
      * apply andb_true_iff in Hr as [Hleaf Heq]. apply Z.eqb_eq in Heq.
        destruct r; [| discriminate]. right. left. exact Heq.
      * destruct (dist_ltb (Distance key (hash_of l)) (Distance key (hash_of r))).
        -- left. apply IHl, H.
        -- destruct (dist_ltb (Distance key (hash_of r)) (Distance key (hash_of l)));
             [right; apply IHr, H | discriminate].
Qed.

(** X10: [Contains] answers true only for a key the index holds; the empty
    index contains nothing. *)
Theorem Contains_sound this key :
  Contains this key = true -> In key (keys this).
Proof.
  unfold Contains, keys. destruct (root_ this) as [root |].
  - apply Contains_node_sound.
  - discriminate.
Qed.

(** The private delete returns no node only for a leaf that holds the key. *)
Lemma Delete_node_None root key :
  Delete_node ConcatHash root key = None -> root = Leaf key.
Proof.
  induction root as [h | l IHl r IHr h]; simpl.
  - destruct (Z.eqb_spec h key); [intros _; congruence | discriminate].
  - destruct (IsLeaf l && (hash_of l =? key)) eqn:Hl; [discriminate |].
    destruct (IsLeaf r && (hash_of r =? key)) eqn:Hr; [discriminate |].
    destruct (dist_eqb _ _); [discriminate |].
    destruct (dist_ltb _ _).
    + destruct (Delete_node ConcatHash l key) eqn:Hd; [discriminate |].
      intros _. rewrite (IHl eq_refl) in Hl. simpl in Hl.
      rewrite Z.eqb_refl in Hl. discriminate.
    + destruct (Delete_node ConcatHash r key) eqn:Hd; [discriminate |].
      intros _. rewrite (IHr eq_refl) in Hr. simpl in Hr.
      rewrite Z.eqb_refl in Hr. discriminate.
Qed.

Lemma leaves_Delete_node root key :
  forall root',
    Delete_node ConcatHash root key = Some root' ->
    (forall k, In k (leaves root') -> In k (leaves root)) /\
    (forall k, k <> key -> In k (leaves root) -> In k (leaves root')).
Proof.
  induction root as [h | l IHl r IHr h]; intros root'; simpl.
  - destruct (h =? key); [discriminate |].
    intros E; inversion E; subst. split; auto.
  - destruct (IsLeaf l && (hash_of l =? key)) eqn:Hl.
    { intros E; inversion E; subst.
      apply andb_true_iff in Hl as [Hleaf Heq]. apply Z.eqb_eq in Heq.
      destruct l as [hl |]; [| discriminate]. simpl in *.
      split; [auto | intros k Hk [Hin | Hin]; [congruence | exact Hin]]. }
    destruct (IsLeaf r && (hash_of r =? key)) eqn:Hr.
    { intros E; inversion E; subst.
      apply andb_true_iff in Hr as [Hleaf Heq]. apply Z.eqb_eq in Heq.
      destruct r as [hr |]; [| discriminate]. simpl in *.
      split; [intros k Hk; apply in_or_app; left; exact Hk |].
      intros k Hk Hin. apply in_app_or in Hin as [Hin | [Hin | []]];
        [exact Hin | congruence]. }
    destruct (dist_eqb _ _).
    { intros E; inversion E; subst. simpl. split; auto. }
    destruct (dist_ltb _ _).
    + destruct (Delete_node ConcatHash l key) as [l' |]; [| discriminate].
      intros E; inversion E; subst. simpl.
      destruct (IHl l' eq_refl) as [Hsub Hkeep].
      split; intros k; rewrite !in_app_iff; intuition auto.
    + destruct (Delete_node ConcatHash r key) as [r' |]; [| discriminate].
      intros E; inversion E; subst. simpl.
      destruct (IHr r' eq_refl) as [Hsub Hkeep].
      split; intros k; rewrite !in_app_iff; intuition auto.
Qed.

(** X11: the public delete.  On an index without root it throws; on an
    index whose root is the leaf of the key it reads the fields of a null
    root, and in no other case; where it returns, the index is in a regular
    state, holds no key it did not hold, and holds every key it held other
    than the one deleted. *)
Theorem Delete_keys this key :
  (root_ this = None ->
   Delete ConcatHash this key = inl (runtime_error "No root to delete from.")) /\
  (Delete ConcatHash this key = inl null_dereference <->
   root_ this = Some (Leaf key)) /\
  (forall this', Delete ConcatHash this key = inr this' ->
     wf this' /\
     (forall k, In k (keys this') -> In k (keys this)) /\
     (forall k, k <> key -> In k (keys this) -> In k (keys this'))).
Proof.
  unfold Delete, keys.
  destruct (root_ this) as [root |].
  - split; [discriminate |].
    destruct (Delete_node ConcatHash root key) as [root' |] eqn:Hdel.
    + split.
      * split; [discriminate |]. intros E. inversion E; subst.
        simpl in Hdel. rewrite Z.eqb_refl in Hdel. discriminate.
      * intros this' E. inversion E; subst; clear E.
        split; [right; exists root'; reflexivity |].
        cbn [root_ with_root]. apply leaves_Delete_node, Hdel.
    + split; [| discriminate].
      split; [intros _; f_equal; apply Delete_node_None, Hdel | reflexivity].
  - split; [reflexivity |]. split; [split; discriminate | discriminate].
Qed.

End MerkleKeys.

Lemma Insert_keys_witness :
  exists this',
    CSMerkle.Insert (fun _ _ => 0) (CSMerkle.with_root (CSMerkle.Leaf 5)) 7
    = Some this' /\ CSMerkle.wf this' /\
    forall k, In k (CSMerkle.keys this') <->
              k = 7 \/ In k (CSMerkle.keys (CSMerkle.with_root (CSMerkle.Leaf 5))).
Proof.
  apply (Insert_keys (fun _ _ => 0) (CSMerkle.with_root (CSMerkle.Leaf 5)) 7).
  right. exists (CSMerkle.Leaf 5). reflexivity.
Defined.

Lemma Contains_sound_witness :
  In 5 (CSMerkle.keys (CSMerkle.with_root (CSMerkle.Leaf 5))).
Proof.
  apply (Contains_sound (CSMerkle.with_root (CSMerkle.Leaf 5)) 5). reflexivity.
Defined.

Lemma Delete_keys_witness :
  let this := CSMerkle.with_root (CSMerkle.Internal (CSMerkle.Leaf 5) (CSMerkle.Leaf 7) 0) in
  let this' := CSMerkle.with_root (CSMerkle.Leaf 7) in
  CSMerkle.wf this' /\
  (forall k, In k (CSMerkle.keys this') -> In k (CSMerkle.keys this)) /\
  (forall k, k <> 5 -> In k (CSMerkle.keys this) -> In k (CSMerkle.keys this')).
Proof.
  cbv zeta.
  apply (proj2 (proj2 (Delete_keys (fun _ _ => 0)
                         (CSMerkle.with_root
                            (CSMerkle.Internal (CSMerkle.Leaf 5) (CSMerkle.Leaf 7) 0))
                         5))).
  reflexivity.
Defined.

(** ** The Merkle index: hashes *)

Section MerkleHashes.

Import CSMerkle.

Variable ConcatHash : Z -> Z -> Z.

Lemma mkInternal_hashed l r :
  hashed ConcatHash l -> hashed ConcatHash r ->
  hashed ConcatHash (mkInternal ConcatHash l r).
Proof. intros Hl Hr. cbn [mkInternal hashed]. auto. Qed.

Lemma InsertLeaf_hashed leaf key :
  hashed ConcatHash leaf -> hashed ConcatHash (InsertLeaf ConcatHash leaf key).
Proof.
  intros Hleaf. unfold InsertLeaf.
  destruct (key <? hash_of leaf); [apply mkInternal_hashed; simpl; auto |].
  destruct (key >? hash_of leaf); [apply mkInternal_hashed; simpl; auto |].
  exact Hleaf.
Qed.

Lemma Insert_node_hashed this root key :
  forall root',
    hashed ConcatHash root ->
    Insert_node ConcatHash this root key = Some root' ->
    hashed ConcatHash root'.
Proof.
  induction root as [h | l IHl r IHr h]; intros root' Hroot Hins;
    cbn [Insert_node] in Hins.
  - inversion Hins; subst. apply InsertLeaf_hashed, Hroot.
  - destruct Hroot as (Hh & Hl & Hr).
    assert (Hnode : hashed ConcatHash (Internal l r h)) by (simpl; auto).
    destruct (dist_eqb _ _).
    + destruct (left_ this) as [tl |]; [| discriminate].
      destruct (right_ this) as [tr |]; [| discriminate].
      destruct (key <? _); inversion Hins; subst;
        apply mkInternal_hashed; simpl; auto.
    + destruct (dist_ltb _ _).
      * destruct (Insert_node ConcatHash this l key) as [l' |]; [| discriminate].
        inversion Hins; subst. apply mkInternal_hashed; [apply IHl |]; auto.
      * destruct (Insert_node ConcatHash this r key) as [r' |]; [| discriminate].
        inversion Hins; subst. apply mkInternal_hashed; [| apply IHr]; auto.
Qed.

Lemma Delete_node_hashed root key :
  forall root',
    hashed ConcatHash root ->
    Delete_node ConcatHash root key = Some root' ->
    hashed ConcatHash root'.
Proof.
  induction root as [h | l IHl r IHr h]; intros root' Hroot Hdel;
    cbn [Delete_node] in Hdel.
  - destruct (h =? key); [discriminate |]. inversion Hdel; subst. exact Hroot.
  - destruct Hroot as (Hh & Hl & Hr).
    destruct (IsLeaf l && (hash_of l =? key)); [inversion Hdel; subst; exact Hr |].
    destruct (IsLeaf r && (hash_of r =? key)); [inversion Hdel; subst; exact Hl |].
    destruct (dist_eqb _ _); [inversion Hdel; subst; simpl; auto |].
    destruct (dist_ltb _ _).
    + destruct (Delete_node ConcatHash l key) as [l' |]; [| discriminate].
      inversion Hdel; subst. apply mkInternal_hashed; [apply IHl |]; auto.
    + destruct (Delete_node ConcatHash r key) as [r' |]; [| discriminate].
      inversion Hdel; subst. apply mkInternal_hashed; [| apply IHr]; auto.
Qed.

(** X12: inserts and deletes keep the index hashed: afterwards every
    internal node carries the hash of its two children's hashes, and the
    hash of the index is the hash of its root. *)
Theorem Insert_Delete_hashed this key :
  index_hashed ConcatHash this ->
  (forall this', Insert ConcatHash this key = Some this' ->
                 index_hashed ConcatHash this') /\
  (forall this', Delete ConcatHash this key = inr this' ->
                 index_hashed ConcatHash this').
Proof.
  unfold index_hashed at 1. intros Hthis. split; intros this'.
  - unfold Insert. destruct (root_ this) as [root |].
    + destruct Hthis as [Hroot _].
      destruct (Insert_node ConcatHash this root key) as [root' |] eqn:Hins;
        [| discriminate].
      intros E; inversion E; subst.
      unfold index_hashed; cbn [root_ hash_ with_root].
      split; [| reflexivity]. apply (Insert_node_hashed _ _ _ _ Hroot Hins).
    + intros E; inversion E; subst.
      unfold index_hashed; cbn [root_ hash_ with_root hashed]. auto.
  - unfold Delete. destruct (root_ this) as [root |]; [| discriminate].
    destruct Hthis as [Hroot _].
    destruct (Delete_node ConcatHash root key) as [root' |] eqn:Hdel;
      [| discriminate].
    intros E; inversion E; subst.
    unfold index_hashed; cbn [root_ hash_ with_root].
    split; [| reflexivity]. apply (Delete_node_hashed _ _ _ Hroot Hdel).
Qed.

(** X13: two hashed trees of the same shape (the same keys, grouped the
    same way) have the same root hash. *)
Theorem same_shape_same_hash a :
  forall b,
    hashed ConcatHash a -> hashed ConcatHash b ->
    shape a = shape b -> hash_of a = hash_of b.
Proof.
  induction a as [h | l IHl r IHr h]; intros [h' | l' r' h'] Ha Hb Hshape;
    cbn [shape] in Hshape; try discriminate.
  - inversion Hshape. reflexivity.
  - destruct Ha as (-> & Hl & Hr). destruct Hb as (-> & Hl' & Hr').
    inversion Hshape. cbn [hash_of].
    rewrite (IHl l'), (IHr r'); auto.
Qed.

End MerkleHashes.

Lemma Insert_Delete_hashed_witness :
  let this := CSMerkle.with_root (CSMerkle.Internal (CSMerkle.Leaf 5)
                                    (CSMerkle.Leaf 7) 0) in
  (forall this', CSMerkle.Insert (fun _ _ => 0) this 6 = Some this' ->
                 CSMerkle.index_hashed (fun _ _ => 0) this') /\
  (forall this', CSMerkle.Delete (fun _ _ => 0) this 6 = inr this' ->
                 CSMerkle.index_hashed (fun _ _ => 0) this').
Proof.
  cbv zeta.
  apply (Insert_Delete_hashed (fun _ _ => 0)).
  unfold CSMerkle.index_hashed; simpl. repeat split.
Defined.

Lemma same_shape_same_hash_witness :
  CSMerkle.hash_of (CSMerkle.Internal (CSMerkle.Leaf 5) (CSMerkle.Leaf 7) 12)
  = CSMerkle.hash_of
      (CSMerkle.mkInternal Z.add (CSMerkle.Leaf 5) (CSMerkle.Leaf 7)).
Proof.
  apply (same_shape_same_hash Z.add); simpl; repeat split.
Defined.

(** ** The local store: what runs of operations keep *)

Section StoreRuns.

Import Database.

Variable ConcatHash : Z -> Z -> Z.

(** The keys of the index after one operation: those before and, for an
    insert, the inserted key. *)
Lemma run_op_index_keys o db k :
  In k (index_keys (run_op ConcatHash o db)) ->
  In k (index_keys db) \/ exists frag, o = OpInsert k frag.
Proof.
  destruct o as [key frag | key frag | key]; cbn [run_op].
  - unfold Insert; cbn [fst snd].
    destruct (data_ db !! key); [left; assumption |].
    destruct (CSMerkle.Insert ConcatHash (index_ db) key) as [index' |] eqn:Hins;
      [| left; assumption].
    cbn [snd]. unfold index_keys; cbn [index_].
    unfold CSMerkle.Insert in Hins.
    destruct (CSMerkle.root_ (index_ db)) as [root |].
    + destruct (CSMerkle.Insert_node ConcatHash (index_ db) root key)
        as [root' |] eqn:Hnode; [| discriminate].
      inversion Hins; subst; cbn [CSMerkle.root_ CSMerkle.with_root].
      intros Hk. apply (leaves_Insert_node ConcatHash _ _ _ _ Hnode) in Hk.
      destruct Hk as [-> | Hk]; [right; eauto | left; exact Hk].
    + inversion Hins; subst; cbn [CSMerkle.root_ CSMerkle.with_root].
      intros [-> | []]. right; eauto.
  - unfold Update; cbn [fst snd].
    destruct (data_ db !! key); left; assumption.
  - unfold Delete.
    destruct (CSMerkle.Contains (index_ db) key); left; assumption.
Qed.

Lemma run_index_keys ops :
  forall db k,
    In k (index_keys (run ConcatHash ops db)) ->
    In k (index_keys db) \/ exists frag, In (OpInsert k frag) ops.
Proof.
  unfold run.
  induction ops as [| o ops IH]; intros db k Hk; simpl in *.
  - left. exact Hk.
  - apply IH in Hk as [Hk | [frag Hk]].
    + apply run_op_index_keys in Hk as [Hk | [frag ->]]; [left; exact Hk |].
      right. exists frag. left. reflexivity.
    + right. exists frag. right. exact Hk.
Qed.

Lemma Contains_index_keys key db :
  Contains key db = true -> In key (index_keys db).
Proof.
  unfold Contains, CSMerkle.Contains, index_keys.
  destruct (CSMerkle.root_ (index_ db));
    [apply Contains_node_sound | discriminate].
Qed.

(** X14: a store that went through any run of inserts, updates and deletes
    from the empty one reports as contained only keys that were inserted
    at some point. *)
Theorem Contains_was_inserted ops key :
  Contains key (run ConcatHash ops empty) = true ->
  exists frag, In (OpInsert key frag) ops.
Proof.
  intros Hc. apply Contains_index_keys in Hc.
  apply run_index_keys in Hc as [[] | Hc]. exact Hc.
Qed.

(** Without a delete every key of the index is a key of the map. *)
Lemma run_op_index_in_map o db :
  (forall key, o <> OpDelete key) ->
  index_in_map db -> index_in_map (run_op ConcatHash o db).
Proof.
  intros Hnd Hinv k Hk.
  destruct o as [key frag | key frag | key]; cbn [run_op] in *.
  - pose proof (run_op_index_keys (OpInsert key frag) db k Hk) as Hcases.
    cbn [run_op] in Hcases. unfold Insert in *; cbn [fst snd] in *.
    destruct (data_ db !! key) as [old |] eqn:Hold; [apply Hinv, Hk |].
    destruct (CSMerkle.Insert ConcatHash (index_ db) key);
      [| apply Hinv, Hk].
    cbn [snd data_]. unfold map_insert. rewrite Hold.
    destruct (decide (k = key)) as [-> | Hne].
    + rewrite lookup_insert_eq. eauto.
    + rewrite lookup_insert_ne by congruence.
      destruct Hcases as [Hin | [frag' E]]; [apply Hinv, Hin | congruence].
  - unfold Update in *; cbn [fst snd] in *.
    destruct (data_ db !! key) as [old |] eqn:Hold; [| apply Hinv, Hk].
    cbn [snd data_ index_] in *.
    destruct (decide (k = key)) as [-> | Hne].
    + rewrite lookup_insert_eq. eauto.
    + rewrite lookup_insert_ne by congruence. apply Hinv, Hk.
  - destruct (Hnd key eq_refl).
Qed.

Lemma run_index_in_map ops :
  forall db,
    no_delete ops -> index_in_map db -> index_in_map (run ConcatHash ops db).
Proof.
  unfold run, no_delete.
  induction ops as [| o ops IH]; intros db Hnd Hinv; simpl.
  - exact Hinv.
  - apply IH.
    + intros key Hin. apply (Hnd key). right. exact Hin.
    + apply run_op_index_in_map; [| exact Hinv].
      intros key ->. apply (Hnd key). left. reflexivity.
Qed.

(** X15: as long as no delete is run, the map and the index hold the same
    keys, and a lookup returns the bound fragment or throws
    "Key does not exist in database." but never [std::out_of_range]. *)
Theorem run_without_delete ops :
  no_delete ops ->
  let db := run ConcatHash ops empty in
  (forall key, In key (index_keys db) <-> is_Some (data_ db !! key)) /\
  (forall key, (Lookup key db).1 <> inl out_of_range).
Proof.
  intros Hnd db.
  assert (Hsub : index_in_map db).
  { apply run_index_in_map; [exact Hnd |]. intros key []. }
  assert (Hsup : map_in_index db).
  { apply (run_map_in_index ConcatHash ops empty).
    - left. reflexivity.
    - intros key [f Hf]. unfold empty in Hf; cbn [data_] in Hf.
      rewrite lookup_empty in Hf. discriminate. }
  split.
  - intros key. split; [apply Hsub | apply Hsup].
  - intros key. unfold Lookup.
    destruct (CSMerkle.Contains (index_ db) key) eqn:Hc; [| discriminate].
    apply (Contains_index_keys key db) in Hc.
    destruct (Hsub key Hc) as [f Hf]. rewrite Hf. discriminate.
Qed.

(** X16: an insert of a key the map does not hold, on a store whose index
    is in a regular state, goes through: the key is bound to the fragment,
    the other bindings stay, and the index holds the new key and the keys it
    held. *)
Theorem Insert_new_key key frag db :
  CSMerkle.wf (index_ db) -> data_ db !! key = None ->
  (Insert ConcatHash (key, frag) db).1 = inr tt /\
  data_ (Insert ConcatHash (key, frag) db).2 !! key = Some frag /\
  (forall k, k <> key ->
     data_ (Insert ConcatHash (key, frag) db).2 !! k = data_ db !! k) /\
  (forall k, In k (index_keys (Insert ConcatHash (key, frag) db).2) <->
             k = key \/ In k (index_keys db)) /\
  CSMerkle.wf (index_ (Insert ConcatHash (key, frag) db).2).
Proof.
  intros Hwf Hnone. unfold Insert; cbn [fst snd]. rewrite Hnone.
  destruct (Insert_total ConcatHash _ key Hwf) as [root' Hins].
  rewrite Hins. cbn [fst snd data_ index_].
  unfold map_insert. rewrite Hnone.
  split; [reflexivity |].
  split; [apply lookup_insert_eq |].
  split; [intros k Hk; apply lookup_insert_ne; congruence |].
  split; [| right; exists root'; reflexivity].
  intros k. unfold index_keys; cbn [index_ CSMerkle.root_ CSMerkle.with_root].
  unfold CSMerkle.Insert in Hins.
  destruct (CSMerkle.root_ (index_ db)) as [root |].
  - destruct (CSMerkle.Insert_node ConcatHash (index_ db) root key)
      as [root'' |] eqn:Hnode; [| discriminate].
    assert (root'' = root') as -> by (injection Hins; intros; congruence).
    apply (leaves_Insert_node ConcatHash _ _ _ _ Hnode).
  - assert (root' = CSMerkle.Leaf key) as ->
      by (injection Hins; intros; congruence).
    simpl. intuition congruence.
Qed.

(** X17: an update of a key the map holds binds the new fragment and
    touches nothing else: the other bindings, the set of keys and the index
    stay; an update of a key the map does not hold throws and changes
    nothing. *)
Theorem Update_outcome key frag db :
  (data_ db !! key = None ->
   Update (key, frag) db
   = (inl (runtime_error "Key does not exist in database."), db)) /\
  (is_Some (data_ db !! key) ->
   (Update (key, frag) db).1 = inr tt /\
   data_ (Update (key, frag) db).2 !! key = Some frag /\
   (forall k, k <> key ->
      data_ (Update (key, frag) db).2 !! k = data_ db !! k) /\
   dom (data_ (Update (key, frag) db).2) = dom (data_ db) /\
   index_ (Update (key, frag) db).2 = index_ db).
Proof.
  unfold Update; cbn [fst snd]. split.
  - intros ->. reflexivity.
  - intros [old Hold]. rewrite Hold. cbn [fst snd data_ index_].
    split; [reflexivity |].
    split; [apply lookup_insert_eq |].
    split; [intros k Hk; apply lookup_insert_ne; congruence |].
    split; [| reflexivity].
    apply dom_insert_lookup_L. eauto.
Qed.

(** X18: a range that starts one past its end is the whole ring: the scan
    returns the entire map. *)
Theorem ReadRange_whole_ring id db :
  Key.in_ring id -> ReadRange (Key.add id 1) id db = data_ db.
Proof.
  intros Hid. unfold ReadRange. apply map_filter_id.
  intros key frag _. cbn [fst]. apply InBetween_whole_ring, Hid.
Qed.

(** What a scan returns in general: the bindings whose key is between the
    bounds, inclusive. *)
Lemma ReadRange_lookup lower_bound upper_bound db key frag :
  ReadRange lower_bound upper_bound db !! key = Some frag <->
  data_ db !! key = Some frag /\
  Key.InBetween key lower_bound upper_bound true = true.
Proof. unfold ReadRange. apply map_lookup_filter_Some. Qed.

End StoreRuns.

Lemma run_without_delete_witness :
  let frag := mkFragment [] 1 in
  let db := Database.run (fun _ _ => 0)
              [Database.OpInsert 5 frag; Database.OpUpdate 5 frag] Database.empty in
  (forall key, In key (Database.index_keys db)
               <-> is_Some (Database.data_ db !! key)) /\
  (forall key, (Database.Lookup key db).1 <> inl out_of_range).
Proof.
  cbv zeta.
  apply (run_without_delete (fun _ _ => 0)
           [Database.OpInsert 5 (mkFragment [] 1);
            Database.OpUpdate 5 (mkFragment [] 1)]).
  intros key [H | [H | []]]; discriminate H.
Defined.

Lemma Contains_was_inserted_witness :
  exists frag, In (Database.OpInsert 5 frag) [Database.OpInsert 5 (mkFragment [] 1)].
Proof.
  apply (Contains_was_inserted (fun _ _ => 0)
           [Database.OpInsert 5 (mkFragment [] 1)] 5).
  reflexivity.
Defined.

Lemma Update_outcome_witness :
  let frag := mkFragment [] 1 in
  let frag' := mkFragment [] 2 in
  let db := Database.mk (<[5 := frag]> ∅) (CSMerkle.with_root (CSMerkle.Leaf 5)) in
  (Database.Update (5, frag') db).1 = inr tt /\
  Database.data_ (Database.Update (5, frag') db).2 !! 5 = Some frag' /\
  (forall k, k <> 5 ->
     Database.data_ (Database.Update (5, frag') db).2 !! k
     = Database.data_ db !! k) /\
  dom (Database.data_ (Database.Update (5, frag') db).2) = dom (Database.data_ db) /\
  Database.index_ (Database.Update (5, frag') db).2 = Database.index_ db.
Proof.
  cbv zeta.
  apply (proj2 (Update_outcome 5 (mkFragment [] 2)
                  (Database.mk (<[5 := mkFragment [] 1]> ∅)
                     (CSMerkle.with_root (CSMerkle.Leaf 5))))).
  exists (mkFragment [] 1). reflexivity.
Defined.

Lemma ReadRange_whole_ring_witness :
  Database.ReadRange (Key.add 100 1) 100
    (Database.mk (<[5 := mkFragment [] 1]> ∅) (CSMerkle.with_root (CSMerkle.Leaf 5)))
  = <[5 := mkFragment [] 1]> ∅.
Proof.
  apply (ReadRange_whole_ring 100).
  unfold Key.in_ring, Key.keys_in_ring. lia.
Defined.

Lemma Insert_new_key_witness :
  let frag := mkFragment [] 1 in
  let stored := Database.Insert (fun _ _ => 0) (5, frag) Database.empty in
  stored.1 = inr tt /\
  Database.data_ stored.2 !! 5 = Some frag /\
  (forall k, k <> 5 ->
     Database.data_ stored.2 !! k = Database.data_ Database.empty !! k) /\
  (forall k, In k (Database.index_keys stored.2) <->
             k = 5 \/ In k (Database.index_keys Database.empty)) /\
  CSMerkle.wf (Database.index_ stored.2).
Proof.
  cbv zeta.
  apply (Insert_new_key (fun _ _ => 0) 5 (mkFragment [] 1) Database.empty).
  - left. reflexivity.
  - reflexivity.
Defined.

(** ** Data blocks: shape and text round trip *)

Section BlockText.

Import DataBlock.

Lemma char_of_double_char_value (c : ascii) :
  char_of_double (IDA.of_Z (char_value c)) = c.
Proof.
  destruct c as [b0 b1 b2 b3 b4 b5 b6 b7].
  destruct b0, b1, b2, b3, b4, b5, b6, b7; vm_compute; reflexivity.
Qed.

Lemma char_value_is_zero (c : ascii) :
  (IDA.of_Z (char_value c) =? 0)%float = Ascii.eqb c Ascii.zero.
Proof.
  destruct c as [b0 b1 b2 b3 b4 b5 b6 b7].
  destruct b0, b1, b2, b3, b4, b5, b6, b7; vm_compute; reflexivity.
Qed.

Lemma Decode_loop_padding n : Decode_loop (repeat 0%float n) = EmptyString.
Proof. destruct n; reflexivity. Qed.

Lemma Decode_loop_chars (s : string) n :
  Decode_loop
    (map (fun c => IDA.of_Z (char_value c)) (list_ascii_of_string s)
       ++ repeat 0%float n)
  = until_nul s.
Proof.
  induction s as [| c s IH]; cbn [list_ascii_of_string map app until_nul].
  - apply Decode_loop_padding.
  - cbn [Decode_loop]. rewrite char_value_is_zero.
    destruct (Ascii.eqb c Ascii.zero); [reflexivity |].
    rewrite char_of_double_char_value, IH. reflexivity.
Qed.

Lemma until_nul_no_nul (s : string) :
  (forall c, In c (list_ascii_of_string s) -> c <> Ascii.zero) ->
  until_nul s = s.
Proof.
  induction s as [| c s IH]; intros Hno; cbn [until_nul]; [reflexivity |].
  destruct (Ascii.eqb_spec c Ascii.zero) as [E | _].
  - destruct (Hno c); [left; reflexivity | exact E].
  - rewrite IH; [reflexivity |]. intros c' Hc'. apply Hno. right. exact Hc'.
Qed.

Lemma of_string_block input sanity_check block :
  of_string input sanity_check = inr block ->
  block = block_of (vector_of input) /\ (String.length input <= 40)%nat.
Proof.
  rewrite of_string_cases.
  destruct (Nat.ltb_spec 40 (String.length input)); [discriminate |].
  destruct sanity_check; [destruct (sanity_passes _) |];
    intros E; inversion E; split; (reflexivity || lia).
Qed.

(** X19: a block built from a text decodes to the text up to its first zero
    byte, hence to the text itself when it has no zero byte. *)
Theorem Decode_of_string input sanity_check block :
  of_string input sanity_check = inr block ->
  Decode block = until_nul input /\
  ((forall c, In c (list_ascii_of_string input) -> c <> Ascii.zero) ->
   Decode block = input).
Proof.
  intros Hblock. apply of_string_block in Hblock as [-> _].
  assert (E : Decode (block_of (vector_of input)) = until_nul input).
  { unfold Decode, block_of, vector_of, pad; cbn [original_].
    apply Decode_loop_chars. }
  split; [exact E |].
  intros Hno. rewrite E. apply until_nul_no_nul, Hno.
Qed.

Lemma Decode_of_string_witness :
  Decode (block_of (vector_of "val")) = until_nul "val" /\
  ((forall c, In c (list_ascii_of_string "val") -> c <> Ascii.zero) ->
   Decode (block_of (vector_of "val")) = "val"%string).
Proof.
  apply (Decode_of_string "val" false (block_of (vector_of "val"))).
  reflexivity.
Defined.

Lemma fold_left_snoc {A B : Type} (f : B -> A) (l : list B) :
  forall acc, fold_left (fun s i => s ++ [f i]) l acc = acc ++ map f l.
Proof.
  induction l as [| i l IH]; intros acc; simpl.
  - rewrite app_nil_r. reflexivity.
  - rewrite IH, <- app_assoc. reflexivity.
Qed.

Lemma FragsFromMatrix_map matrix :
  FragsFromMatrix matrix =
  map (fun i => mkFragment (nth i matrix []) (Z.of_nat i + 1))
    (seq 0 (List.length matrix)).
Proof.
  unfold FragsFromMatrix, for_range. rewrite Nat.sub_0_r.
  apply (fold_left_snoc (fun i => mkFragment (nth i matrix []) (Z.of_nat i + 1))).
Qed.

Lemma set2_rows cols m i j x :
  Forall (fun row => List.length row = cols) m ->
  Forall (fun row => List.length row = cols) (IDA.set2 m i j x).
Proof.
  intros Hm. unfold IDA.set2.
  destruct (Nat.lt_ge_cases i (List.length m)) as [Hlt | Hge].
  - apply Forall_insert; [exact Hm |].
    rewrite length_insert.
    rewrite List.Forall_forall in Hm. apply Hm. apply nth_In. exact Hlt.
  - rewrite (list_insert_ge m i); [exact Hm | exact Hge].
Qed.

Lemma Encode_rows ida message :
  Forall (fun row => List.length row = (List.length message / IDA.m_ ida)%nat)
    (IDA.Encode ida message).
Proof.
  unfold IDA.Encode.
  apply for_range_invariant.
  - unfold IDA.zeros2, IDA.zeros. apply List.Forall_forall.
    intros row Hrow. apply repeat_spec in Hrow. subst. apply repeat_length.
  - intros i c Hc.
    apply for_range_invariant; [exact Hc |]. intros j c' Hc'.
    apply for_range_invariant; [exact Hc' |]. intros k c'' Hc''.
    apply set2_rows. exact Hc''.
Qed.

Lemma pad_length original :
  (List.length original <= 40)%nat -> List.length (pad original) = 40%nat.
Proof.
  intros H. unfold pad. rewrite length_app, repeat_length. lia.
Qed.

(** X20: every block built from a text has a padded vector of 40 numbers
    and fourteen fragments, numbered 1 to 14 in this order, of four numbers
    each. *)
Theorem of_string_shape input sanity_check block :
  of_string input sanity_check = inr block ->
  List.length (original_ block) = 40%nat /\
  map index_ (fragments_ block)
  = [1; 2; 3; 4; 5; 6; 7; 8; 9; 10; 11; 12; 13; 14] /\
  Forall (fun frag => List.length (fragment_ frag) = 4%nat) (fragments_ block).
Proof.
  intros Hblock. apply of_string_block in Hblock as [-> Hlen].
  assert (H40 : List.length (vector_of input) = 40%nat).
  { unfold vector_of. apply pad_length.
    rewrite length_map, length_list_ascii. exact Hlen. }
  unfold block_of; cbn [original_ fragments_].
  split; [exact H40 |].
  rewrite FragsFromMatrix_map, Encode_length.
  split.
  - rewrite map_map. reflexivity.
  - apply List.Forall_forall. intros frag Hfrag.
    apply in_map_iff in Hfrag as (i & <- & Hi). cbn [fragment_].
    apply in_seq in Hi.
    pose proof (Encode_rows ida_ (vector_of input)) as Hrows.
    rewrite List.Forall_forall in Hrows. rewrite (Hrows (nth i _ [])).
    + rewrite H40. reflexivity.
    + apply nth_In. rewrite Encode_length. simpl in *. lia.
Qed.

Lemma of_string_shape_witness :
  List.length (original_ (block_of (vector_of "val"))) = 40%nat /\
  map index_ (fragments_ (block_of (vector_of "val")))
  = [1; 2; 3; 4; 5; 6; 7; 8; 9; 10; 11; 12; 13; 14] /\
  Forall (fun frag => List.length (fragment_ frag) = 4%nat)
    (fragments_ (block_of (vector_of "val"))).
Proof.
  apply (of_string_shape "val" false (block_of (vector_of "val"))).
  reflexivity.
Defined.

Lemma Decode_length ida encoded fid :
  List.length (IDA.Decode ida encoded fid)
  = (List.length encoded * List.length (nth 0 encoded []))%nat.
Proof.
  unfold IDA.Decode.
  set (num_rows := (List.length encoded * List.length (nth 0 encoded []))%nat).
  assert (Hdm : forall dm : IDA.OneDimMatrix,
             List.length dm = num_rows ->
             List.length
               (for_range 0 (List.length dm)
                  (fun i dm => <[i := IDA.round (IDA.at1 dm i)]> dm) dm)
             = num_rows).
  { intros dm Hlen.
    apply (for_range_invariant (fun d : IDA.OneDimMatrix => List.length d = num_rows));
      [exact Hlen |].
    intros i d Hd. etransitivity; [apply length_insert | exact Hd]. }
  apply Hdm.
  apply (for_range_invariant (fun d : IDA.OneDimMatrix => List.length d = num_rows)).
  - unfold IDA.zeros. apply repeat_length.
  - intros i d Hd.
    apply (for_range_invariant (fun d : IDA.OneDimMatrix => List.length d = num_rows));
      [exact Hd |].
    intros k d' Hd'. etransitivity; [apply length_insert | exact Hd'].
Qed.

(** X21: a block rebuilt from ten fragments of the same width has ten
    times that width numbers, and again fourteen fragments numbered 1 to 14
    of that width. *)
Theorem of_fragments_shape fragments width :
  List.length fragments = 10%nat ->
  Forall (fun frag => List.length (fragment_ frag) = width) fragments ->
  let block := of_fragments fragments in
  List.length (original_ block) = (10 * width)%nat /\
  map index_ (fragments_ block)
  = [1; 2; 3; 4; 5; 6; 7; 8; 9; 10; 11; 12; 13; 14] /\
  Forall (fun frag => List.length (fragment_ frag) = width) (fragments_ block).
Proof.
  intros Hten Hwidth. cbv zeta. unfold of_fragments; cbn [original_ fragments_].
  assert (Hsize : List.length
            (IDA.Decode ida_ (map fragment_ fragments) (map index_ fragments))
          = (10 * width)%nat).
  { rewrite Decode_length, length_map, Hten.
    destruct fragments as [| first rest]; [discriminate |].
    apply Forall_inv in Hwidth. cbn [map nth]. rewrite Hwidth. reflexivity. }
  split; [exact Hsize |].
  rewrite FragsFromMatrix_map, Encode_length.
  split.
  - rewrite map_map. reflexivity.
  - apply List.Forall_forall. intros frag Hfrag.
    apply in_map_iff in Hfrag as (i & <- & Hi). cbn [fragment_].
    apply in_seq in Hi.
    pose proof (Encode_rows ida_
                  (IDA.Decode ida_ (map fragment_ fragments)
                     (map index_ fragments))) as Hrows.
    rewrite List.Forall_forall in Hrows. rewrite (Hrows (nth i _ [])).
    + rewrite Hsize. cbn [ida_ IDA.m_].
      rewrite Nat.mul_comm. apply Nat.div_mul. discriminate.
    + apply nth_In. rewrite Encode_length. simpl in *. lia.
Qed.

Lemma of_fragments_shape_witness :
  let fragments := firstn 10 (fragments_ (block_of hello_world)) in
  let block := of_fragments fragments in
  List.length (original_ block) = (10 * 4)%nat /\
  map index_ (fragments_ block)
  = [1; 2; 3; 4; 5; 6; 7; 8; 9; 10; 11; 12; 13; 14] /\
  Forall (fun frag => List.length (fragment_ frag) = 4%nat) (fragments_ block).
Proof.
  cbv zeta.
  apply (of_fragments_shape (firstn 10 (fragments_ (block_of hello_world))) 4).
  - vm_compute. reflexivity.
  - vm_compute. repeat constructor.
Defined.

End BlockText.

(** ** Splitting a string *)

Section Splitting.

Import Text.

Lemma append_cons c (a b : string) :
  String.append (String c a) b = String c (String.append a b).
Proof. reflexivity. Qed.

Lemma append_empty (b : string) : String.append EmptyString b = b.
Proof. reflexivity. Qed.

Lemma append_assoc (a b c : string) :
  String.append (String.append a b) c = String.append a (String.append b c).
Proof.
  induction a as [| x a IH]; rewrite ?append_empty, ?append_cons;
    [| rewrite IH]; reflexivity.
Qed.

Lemma length_append (a b : string) :
  String.length (String.append a b) = (String.length a + String.length b)%nat.
Proof.
  induction a as [| x a IH]; rewrite ?append_empty, ?append_cons;
    cbn [String.length Nat.add]; [| rewrite IH]; reflexivity.
Qed.

Lemma prefix_append (d a : string) :
  String.prefix d a = true -> exists rest, a = String.append d rest.
Proof.
  revert a. induction d as [| x d IH]; intros a Hp.
  - exists a. reflexivity.
  - destruct a as [| y a]; [discriminate |]. simpl in Hp.
    destruct (ascii_dec x y) as [-> | _]; [| discriminate].
    destruct (IH a Hp) as [rest ->]. exists rest. reflexivity.
Qed.

Lemma prefix_extend (d a b : string) :
  String.prefix d a = true -> String.prefix d (String.append a b) = true.
Proof.
  revert a. induction d as [| x d IH]; intros a Hp.
  - destruct (String.append a b); reflexivity.
  - destruct a as [| y a]; [discriminate |]. rewrite append_cons.
    cbn [String.prefix] in *.
    destruct (ascii_dec x y); [apply IH, Hp | discriminate].
Qed.

Lemma prefix_of_empty (d : string) :
  d <> EmptyString -> String.prefix d EmptyString = false.
Proof. destruct d; [congruence | reflexivity]. Qed.

Lemma substring_whole (s : string) : substring 0 (String.length s) s = s.
Proof.
  induction s as [| c s IH]; cbn [String.length substring];
    [| rewrite IH]; reflexivity.
Qed.

Lemma substring_append (pre rest : string) n :
  substring (String.length pre) n (String.append pre rest) = substring 0 n rest.
Proof.
  induction pre as [| c pre IH]; rewrite ?append_empty, ?append_cons;
    cbn [String.length substring]; [reflexivity | exact IH].
Qed.

Lemma substring_token (token rest : string) :
  substring 0 (String.length token) (String.append token rest) = token.
Proof.
  induction token as [| c token IH]; rewrite ?append_empty, ?append_cons;
    cbn [String.length substring];
    [destruct rest | rewrite IH]; reflexivity.
Qed.

Lemma find_append (pre rest delimiter : string) :
  find (String.append pre rest) delimiter (String.length pre)
  = option_map (Nat.add (String.length pre)) (find_first rest delimiter).
Proof.
  induction pre as [| c pre IH]; rewrite ?append_empty, ?append_cons;
    cbn [String.length find].
  - destruct (find_first rest delimiter); reflexivity.
  - rewrite IH. destruct (find_first rest delimiter); reflexivity.
Qed.

(** What [find_first] finds: the text before the first delimiter holds no
    delimiter, and the delimiter follows it. *)
Lemma find_first_Some (delimiter : string) :
  delimiter <> EmptyString ->
  forall rest k,
    find_first rest delimiter = Some k ->
    exists token rest',
      rest = String.append token (String.append delimiter rest') /\
      String.length token = k /\
      find_first token delimiter = None.
Proof.
  intros Hd. induction rest as [| c rest IH]; intros k Hfind.
  - cbn [find_first] in Hfind.
    rewrite prefix_of_empty in Hfind by exact Hd. discriminate.
  - cbn [find_first] in Hfind.
    destruct (String.prefix delimiter (String c rest)) eqn:Hp.
    + inversion Hfind; subst k.
      destruct (prefix_append _ _ Hp) as [rest' Hrest'].
      exists EmptyString, rest'. split; [exact Hrest' |]. split; [reflexivity |].
      cbn [find_first]. rewrite prefix_of_empty by exact Hd. reflexivity.
    + destruct (find_first rest delimiter) as [k' |] eqn:Hk'; [| discriminate].
      inversion Hfind; subst k.
      destruct (IH k' eq_refl) as (token & rest' & -> & Hlen & Hnone).
      exists (String c token), rest'.
      split; [reflexivity |]. split; [simpl; congruence |].
      cbn [find_first]. rewrite Hnone.
      destruct (String.prefix delimiter (String c token)) eqn:Hp'; [| reflexivity].
      apply (prefix_extend _ _ (String.append delimiter rest')) in Hp'.
      rewrite append_cons in *. congruence.
Qed.

Lemma concat_cons (sep token : string) (tokens : list string) :
  tokens <> [] ->
  String.concat sep (token :: tokens)
  = String.append token (String.append sep (String.concat sep tokens)).
Proof. destruct tokens; [congruence | reflexivity]. Qed.

Lemma Split_loop_tokens (delimiter : string) :
  delimiter <> EmptyString ->
  forall fuel pre rest res,
    (String.length rest < fuel)%nat ->
    exists tokens,
      Split_loop fuel (String.append pre rest) delimiter (String.length pre) res
      = Some (res ++ tokens) /\
      tokens <> [] /\
      String.concat delimiter tokens = rest /\
      Forall (fun token => find token delimiter 0 = None) tokens.
Proof.
  intros Hd. induction fuel as [| fuel IH]; intros pre rest res Hfuel; [lia |].
  cbn [Split_loop]. rewrite find_append.
  destruct (find_first rest delimiter) as [k |] eqn:Hfind; cbn [option_map].
  - destruct (find_first_Some _ Hd _ _ Hfind) as (token & rest' & -> & Hlen & Hnone).
    replace (String.length pre + k - String.length pre)%nat with k by lia.
    rewrite substring_append. subst k. rewrite substring_token.
    assert (Hpos : (String.length pre + String.length token
                    + String.length delimiter)%nat
                   = String.length
                       (String.append pre (String.append token delimiter))).
    { rewrite !length_append. lia. }
    rewrite Hpos.
    replace (String.append pre (String.append token (String.append delimiter rest')))
      with (String.append (String.append pre (String.append token delimiter)) rest')
      by (rewrite !append_assoc; reflexivity).
    destruct (IH (String.append pre (String.append token delimiter)) rest'
                (res ++ [token])) as (tokens & Hrun & Hne & Hjoin & Hfree).
    { rewrite !length_append in Hfuel.
      destruct delimiter; [congruence | cbn [String.length] in Hfuel; lia]. }
    exists (token :: tokens). rewrite Hrun, <- app_assoc.
    split; [reflexivity |]. split; [discriminate |].
    split; [rewrite concat_cons by exact Hne; rewrite Hjoin; reflexivity |].
    constructor; [exact Hnone | exact Hfree].
  - exists [rest]. unfold substr_from.
    rewrite length_append.
    replace (String.length pre + String.length rest - String.length pre)%nat
      with (String.length rest) by lia.
    rewrite substring_append, substring_whole.
    split; [reflexivity |]. split; [discriminate |]. split; [reflexivity |].
    constructor; [exact Hfind | constructor].
Qed.

(** X22: with a delimiter that is not empty, [Split] returns, the list is
    not empty, no token holds the delimiter, and the tokens joined by the
    delimiter are the string that was split. *)
Theorem Split_join (s delimiter : string) :
  delimiter <> EmptyString ->
  exists tokens,
    Split s delimiter = Some tokens /\
    tokens <> [] /\
    String.concat delimiter tokens = s /\
    Forall (fun token => find token delimiter 0 = None) tokens.
Proof.
  intros Hd. unfold Split.
  destruct (Split_loop_tokens delimiter Hd (S (String.length s)) EmptyString s [])
    as (tokens & Hrun & Hrest); [lia |].
  exists tokens. split; [exact Hrun | exact Hrest].
Qed.

Lemma Split_join_witness :
  exists tokens,
    Split "1:104 101 108" ":" = Some tokens /\
    tokens <> [] /\
    String.concat ":" tokens = "1:104 101 108"%string /\
    Forall (fun token => find token ":" 0 = None) tokens.
Proof.
  apply (Split_join "1:104 101 108" ":"). discriminate.
Defined.

Lemma find_empty_delimiter (s : string) :
  forall pos, (pos <= String.length s)%nat -> find s EmptyString pos = Some pos.
Proof.
  induction s as [| c s IH]; intros [| pos] Hpos; simpl in *;
    try reflexivity; try lia.
  rewrite IH by lia. reflexivity.
Qed.

(** X23: with the empty delimiter the loop of [Split] never ends: [find]
    answers the position it was given, the position does not advance, and
    after any number of rounds the loop is still running. *)
Theorem Split_empty_delimiter (s : string) fuel :
  forall pos_start res,
    (pos_start <= String.length s)%nat ->
    Split_loop fuel s EmptyString pos_start res = None.
Proof.
  induction fuel as [| fuel IH]; intros pos_start res Hpos; [reflexivity |].
  cbn [Split_loop]. rewrite find_empty_delimiter by exact Hpos.
  cbn [String.length]. rewrite Nat.add_0_r. apply IH, Hpos.
Qed.

Lemma Split_empty_delimiter_witness :
  Split_loop 100 "a b" EmptyString 0 [] = None.
Proof.
  apply (Split_empty_delimiter "a b" 100 0 []). simpl. lia.
Defined.

End Splitting.

(** ** The successor walk, and create and read on top of it *)

Section Walk.

Import Peer.

Variable ConcatHash : Z -> Z -> Z.
Variable forward_get_succ : Z -> result PeerRepr.
Variable send_create_frag : PeerRepr -> Z -> DataFragment -> result bool.

Lemma GetNSuccessors_loop_length key remaining :
  forall i prev acc st l st',
    List.length acc = i ->
    (i <> 0%nat -> exists p, nth_error acc (i - 1) = Some p /\ id_ p = prev) ->
    GetNSuccessors_loop forward_get_succ remaining i key prev acc st
    = (inr l, st') ->
    (List.length l <= i + remaining)%nat /\
    ((List.length l < i + remaining)%nat ->
     exists j p,
       nth_error l j = Some p /\ id_ p = key /\ List.length l = (j + 2)%nat).
Proof.
  induction remaining as [| remaining IH]; intros i prev acc st l st' Hlen Hprev Hrun;
    cbn [GetNSuccessors_loop] in Hrun.
  - unfold ret in Hrun. inversion Hrun; subst. split; lia.
  - unfold andthen in Hrun.
    destruct (GetSuccessor forward_get_succ (Key.add prev 1) st)
      as [[e | ith_succ] st1]; [discriminate |].
    destruct ((prev =? key) && negb (Nat.eqb i 0)) eqn:Hstop.
    + unfold ret in Hrun. inversion Hrun; subst l st'.
      rewrite length_app; cbn [List.length]. split; [lia |]. intros _.
      apply andb_true_iff in Hstop as [Hkey Hi].
      apply Z.eqb_eq in Hkey. apply negb_true_iff, Nat.eqb_neq in Hi.
      destruct (Hprev Hi) as (p & Hp & Hid).
      exists (i - 1)%nat, p.
      rewrite nth_error_app1 by lia.
      split; [exact Hp |]. split; [congruence | lia].
    + apply IH in Hrun.
      * destruct Hrun as [Hle Hshort]. split; [lia |].
        intros Hlt. apply Hshort. lia.
      * rewrite length_app; cbn [List.length]. lia.
      * intros _. exists ith_succ.
        replace (S i - 1)%nat with (List.length acc + 0)%nat by lia.
        rewrite nth_error_app2 by lia.
        replace (List.length acc + 0 - List.length acc)%nat with 0%nat by lia.
        split; reflexivity.
Qed.

(** X24: the successor walk returns at most [n] entries, and fewer than [n]
    only when the entry before the last has the key as its id; for a key
    that is not the id of a returned peer the list has [n] entries, however
    few peers the ring has. *)
Theorem GetNSuccessors_length key n st succ_list st' :
  GetNSuccessors forward_get_succ key n st = (inr succ_list, st') ->
  (List.length succ_list <= n)%nat /\
  ((List.length succ_list < n)%nat ->
   exists j p,
     nth_error succ_list j = Some p /\ id_ p = key /\
     List.length succ_list = (j + 2)%nat) /\
  ((forall p, In p succ_list -> id_ p <> key) ->
   List.length succ_list = n).
Proof.
  intros Hrun. unfold GetNSuccessors in Hrun.
  apply GetNSuccessors_loop_length in Hrun as [Hle Hshort];
    [| reflexivity | intros H; contradiction].
  split; [exact Hle |]. split; [exact Hshort |].
  intros Hnone.
  destruct (Nat.eq_dec (List.length succ_list) n) as [E | NE]; [exact E |].
  destruct Hshort as (j & p & Hj & Hid & _); [simpl; lia |].
  exfalso. apply (Hnone p); [| exact Hid].
  apply nth_error_In in Hj. exact Hj.
Qed.

(** X25: [Create] returns a boolean only if the walk gave fewer than ten
    successors (and then false) or all fourteen; with ten to thirteen it
    ends in an exception. *)
Theorem Create_returns_only key value st answer st' :
  Create ConcatHash forward_get_succ send_create_frag key value st
  = (inr answer, st') ->
  exists succ_list st1,
    GetNSuccessors forward_get_succ key NUM_REPLICAS st = (inr succ_list, st1) /\
    (((List.length succ_list < 10)%nat /\ answer = false) \/
     List.length succ_list = 14%nat).
Proof.
  intros Hcreate.
  destruct (GetNSuccessors forward_get_succ key NUM_REPLICAS st)
    as [[e | succ_list] st1] eqn:Hwalk.
  - unfold Create, andthen, lift in Hcreate. rewrite Hwalk in Hcreate.
    destruct (DataBlock.of_string value true); discriminate.
  - exists succ_list, st1. split; [reflexivity |].
    destruct (Nat.ltb_spec (List.length succ_list) 10) as [Hlt | Hge].
    + left. split; [exact Hlt |].
      unfold Create, andthen, lift in Hcreate. rewrite Hwalk in Hcreate.
      destruct (DataBlock.of_string value true); [discriminate |].
      destruct (Nat.ltb_spec (List.length succ_list) 10); [| lia].
      unfold ret in Hcreate. congruence.
    + right.
      assert (Hle : (List.length succ_list <= 14)%nat).
      { unfold GetNSuccessors in Hwalk.
        apply GetNSuccessors_loop_length in Hwalk as [Hle _];
          [exact Hle | reflexivity | intros H; contradiction]. }
      destruct (Nat.eq_dec (List.length succ_list) 14%nat) as [E | NE]; [exact E |].
      destruct (Create_short_list ConcatHash forward_get_succ send_create_frag
                  key value st st1 succ_list Hwalk) as (e & st2 & Hthrows);
        [lia |].
      congruence.
Qed.

(** *** A ring of one peer *)

Section SinglePeer.

Variable st : Peer.t.
Hypothesis id_in_ring : Key.in_ring (id_ (repr st)).
Hypothesis owns_all : min_key_ (repr st) = Key.add (id_ (repr st)) 1.

Lemma GetSuccessor_single key :
  GetSuccessor forward_get_succ key st = (inr (repr st), st).
Proof.
  unfold GetSuccessor. rewrite owns_all.
  rewrite InBetween_whole_ring by exact id_in_ring. reflexivity.
Qed.

Lemma GetNSuccessors_loop_single key remaining :
  forall i prev acc,
    (prev = key -> i = 0%nat) ->
    id_ (repr st) <> key ->
    GetNSuccessors_loop forward_get_succ remaining i key prev acc st
    = (inr (acc ++ repeat (repr st) remaining), st).
Proof.
  induction remaining as [| remaining IH]; intros i prev acc Hprev Hid;
    cbn [GetNSuccessors_loop repeat].
  - rewrite app_nil_r. reflexivity.
  - unfold andthen. rewrite GetSuccessor_single.
    assert (Hgo : (prev =? key) && negb (Nat.eqb i 0) = false).
    { destruct (Z.eqb_spec prev key) as [E | NE]; [| reflexivity].
      rewrite (Hprev E). reflexivity. }
    rewrite Hgo, IH; [| intros E; contradiction | exact Hid].
    rewrite <- app_assoc. reflexivity.
Qed.

Lemma GetNSuccessors_single key n :
  id_ (repr st) <> key ->
  GetNSuccessors forward_get_succ key n st = (inr (repeat (repr st) n), st).
Proof.
  intros Hid. unfold GetNSuccessors.
  rewrite GetNSuccessors_loop_single; [reflexivity | reflexivity | exact Hid].
Qed.

Lemma GetNSuccessors_own_id n :
  GetNSuccessors forward_get_succ (id_ (repr st)) (S (S n)) st
  = (inr [repr st; repr st], st).
Proof.
  unfold GetNSuccessors. cbn [GetNSuccessors_loop].
  unfold andthen. rewrite !GetSuccessor_single.
  rewrite Z.eqb_refl. cbn [Nat.eqb negb andb app].
  rewrite GetSuccessor_single. reflexivity.
Qed.

End SinglePeer.

(** X26: a peer that is alone on the ring (its range is the whole ring, as
    [StartChord] leaves it) cannot create a block.  For its own id the walk
    returns two entries and [Create] returns false; for every other key the
    walk returns the peer fourteen times, the first fragment is stored
    locally and the second local insert throws. *)
Theorem Create_single_peer key value block st :
  Key.in_ring (id_ (repr st)) ->
  min_key_ (repr st) = Key.add (id_ (repr st)) 1 ->
  CSMerkle.wf (Database.index_ (database_ st)) ->
  DataBlock.of_string value true = inr block ->
  let created :=
    Create ConcatHash forward_get_succ send_create_frag key value st in
  (key = id_ (repr st) ->
   created.1 = inr false /\ database_ created.2 = database_ st) /\
  (key <> id_ (repr st) ->
   created.1 = inl (runtime_error "Key already exists in db") /\
   Database.data_ (database_ created.2) !! key <> None).
Proof.
  intros Hid Hmin Hwf Hblock. cbv zeta.
  unfold Create, andthen, lift. rewrite Hblock.
  split.
  - intros ->. unfold NUM_REPLICAS.
    rewrite GetNSuccessors_own_id by assumption.
    split; reflexivity.
  - intros Hkey.
    rewrite GetNSuccessors_single by (assumption || congruence).
    cbn [List.length repeat NUM_REPLICAS Nat.ltb Nat.leb].
    pose proof (of_string_fragments _ _ _ Hblock) as H14.
    destruct (DataBlock.fragments_ block) as [| f1 [| f2 rest]];
      [discriminate | discriminate |].
    cbn [place nth_error]. rewrite Z.eqb_refl.
    unfold andthen, on_database, Database.Insert; cbn [fst snd database_].
    destruct (Database.data_ (database_ st) !! key) as [held |] eqn:Hheld.
    + cbn [fst snd database_]. split; [reflexivity |]. rewrite Hheld. discriminate.
    + destruct (Insert_total ConcatHash _ key Hwf) as [index' Hindex].
      rewrite Hindex.
      cbn [place nth_error repr database_ Database.data_ Database.index_].
      rewrite Z.eqb_refl.
      unfold andthen, on_database, Database.Insert;
        cbn [fst snd database_ Database.data_].
      unfold Database.map_insert. rewrite Hheld, lookup_insert_eq.
      cbn [fst snd database_ Database.data_].
      split; [reflexivity |]. rewrite lookup_insert_eq. discriminate.
Qed.

End Walk.

(** *** Reading *)

Section Reading.

Import Peer.

Variable send_read_frag : PeerRepr -> Z -> result DataFragment.

Lemma ascending_cons x l :
  ascending (x :: l) = true <->
  (match l with [] => True | y :: _ => x < y end) /\ ascending l = true.
Proof.
  destruct l as [| y l]; cbn [ascending].
  - tauto.
  - rewrite andb_true_iff, Z.ltb_lt. tauto.
Qed.

Lemma set_insert_head frag set :
  match map index_ (set_insert frag set) with
  | [] => False
  | z :: _ =>
      z = index_ frag \/
      match map index_ set with [] => False | y :: _ => z = y end
  end.
Proof.
  destruct set as [| x rest]; cbn [set_insert map].
  - left; reflexivity.
  - destruct (index_ frag <? index_ x); cbn [map].
    + left; reflexivity.
    + destruct (index_ x <? index_ frag); cbn [map]; right; reflexivity.
Qed.

Lemma set_insert_ascending frag set :
  ascending (map index_ set) = true ->
  ascending (map index_ (set_insert frag set)) = true.
Proof.
  induction set as [| x rest IH]; intros Hset; [reflexivity |].
  cbn [set_insert].
  destruct (Z.ltb_spec (index_ frag) (index_ x)) as [Hlt | Hge].
  - cbn [map]. apply ascending_cons. split; [exact Hlt | exact Hset].
  - destruct (Z.ltb_spec (index_ x) (index_ frag)) as [Hlt | _]; [| exact Hset].
    cbn [map] in *. apply ascending_cons in Hset as [Hhead Hrest].
    apply ascending_cons. split; [| apply IH, Hrest].
    pose proof (set_insert_head frag rest) as Hins.
    destruct (map index_ (set_insert frag rest)) as [| z zs]; [exact I |].
    destruct Hins as [-> | Hins]; [exact Hlt |].
    destruct (map index_ rest) as [| y ys]; [contradiction |].
    subst z. exact Hhead.
Qed.

Lemma set_insert_length frag set :
  (List.length (set_insert frag set) <= S (List.length set))%nat.
Proof.
  induction set as [| x rest IH]; cbn [set_insert List.length]; [lia |].
  destruct (index_ frag <? index_ x); cbn [List.length]; [lia |].
  destruct (index_ x <? index_ frag); cbn [List.length]; lia.
Qed.

Lemma gather_set key succ_list :
  forall fragments st l st',
    (List.length fragments <= 10)%nat ->
    ascending (map index_ fragments) = true ->
    gather send_read_frag key succ_list fragments st = (inr l, st') ->
    (List.length l <= 10)%nat /\ ascending (map index_ l) = true.
Proof.
  induction succ_list as [| succ rest IH];
    intros fragments st l st' Hlen Hasc Hrun; cbn [gather] in Hrun.
  - unfold ret in Hrun. inversion Hrun; subst. split; assumption.
  - destruct (Nat.eqb_spec (List.length fragments) 10) as [Hten | Hless].
    + unfold ret in Hrun. inversion Hrun; subst. split; assumption.
    + pose proof (set_insert_length) as Hgrow.
      destruct ((id_ succ =? id_ (repr st))
                && Database.Contains key (database_ st)).
      * unfold andthen in Hrun.
        destruct (on_database (Database.Lookup key) st) as [[e | frag] st1];
          [discriminate |].
        apply IH in Hrun; [exact Hrun | |].
        -- specialize (Hgrow frag fragments). lia.
        -- apply set_insert_ascending, Hasc.
      * destruct (send_read_frag succ key) as [e | frag].
        -- apply IH in Hrun; [exact Hrun | exact Hlen | exact Hasc].
        -- apply IH in Hrun; [exact Hrun | |].
           ++ specialize (Hgrow frag fragments). lia.
           ++ apply set_insert_ascending, Hasc.
Qed.

(** X27: a block that [Read] returns was decoded from exactly ten fragments
    with strictly increasing, hence pairwise distinct, indices. *)
Theorem Read_ten_fragments forward_get_succ key st block st' :
  Read forward_get_succ send_read_frag key st = (inr block, st') ->
  exists fragments,
    block = DataBlock.of_fragments fragments /\
    List.length fragments = 10%nat /\
    ascending (map index_ fragments) = true.
Proof.
  unfold Read, andthen. intros Hrun.
  destruct (GetNSuccessors forward_get_succ key NUM_REPLICAS st)
    as [[e | succ_list] st1]; [discriminate |].
  destruct (gather send_read_frag key succ_list [] st1)
    as [[e | fragments] st2] eqn:Hgather; [discriminate |].
  apply gather_set in Hgather as [Hle Hasc]; [| simpl; lia | reflexivity].
  destruct (Nat.ltb_spec (List.length fragments) 10) as [Hlt | Hge].
  - unfold throw in Hrun. discriminate.
  - unfold ret in Hrun. inversion Hrun; subst.
    exists fragments. split; [reflexivity |]. split; [lia | exact Hasc].
Qed.

End Reading.

Lemma GetNSuccessors_length_witness :
  let walk :=
    Peer.GetNSuccessors (Ring.forward_get_succ Ring.eleven) 300
      Peer.NUM_REPLICAS (Ring.start Ring.eleven 100) in
  let succ_list := match walk.1 with inr l => l | inl _ => [] end in
  (List.length succ_list <= 14)%nat /\
  ((List.length succ_list < 14)%nat ->
   exists j p,
     nth_error succ_list j = Some p /\ id_ p = 300 /\
     List.length succ_list = (j + 2)%nat) /\
  ((forall p, In p succ_list -> id_ p <> 300) ->
   List.length succ_list = 14%nat).
Proof.
  cbv zeta.
  apply (GetNSuccessors_length (Ring.forward_get_succ Ring.eleven) 300 14
           (Ring.start Ring.eleven 100) _ (Ring.start Ring.eleven 100)).
  vm_compute. reflexivity.
Defined.

Lemma Create_returns_only_witness :
  let st := Ring.start Ring.eleven 100 in
  let created :=
    Peer.Create (fun _ _ => 0) (Ring.forward_get_succ Ring.eleven)
      Ring.accept_all 301 "val" st in
  exists succ_list st1,
    Peer.GetNSuccessors (Ring.forward_get_succ Ring.eleven) 301
      Peer.NUM_REPLICAS st = (inr succ_list, st1) /\
    (((List.length succ_list < 10)%nat /\ true = false) \/
     List.length succ_list = 14%nat).
Proof.
  cbv zeta.
  apply (Create_returns_only (fun _ _ => 0) (Ring.forward_get_succ Ring.eleven)
           Ring.accept_all 301 "val" (Ring.start Ring.eleven 100) true
           (Peer.Create (fun _ _ => 0) (Ring.forward_get_succ Ring.eleven)
              Ring.accept_all 301 "val" (Ring.start Ring.eleven 100)).2).
  vm_compute. reflexivity.
Defined.

Lemma Create_single_peer_witness :
  let st := Ring.start [100] 100 in
  let created :=
    Peer.Create (fun _ _ => 0) (Ring.forward_get_succ [100]) Ring.accept_all
      31 "val" st in
  (31 = id_ (Peer.repr st) ->
   created.1 = inr false /\ Peer.database_ created.2 = Peer.database_ st) /\
  (31 <> id_ (Peer.repr st) ->
   created.1 = inl (runtime_error "Key already exists in db") /\
   Database.data_ (Peer.database_ created.2) !! 31 <> None).
Proof.
  cbv zeta.
  apply (Create_single_peer (fun _ _ => 0) (Ring.forward_get_succ [100])
           Ring.accept_all 31 "val"
           (DataBlock.block_of (DataBlock.vector_of "val"))
           (Ring.start [100] 100)).
  - unfold Key.in_ring, Key.keys_in_ring. simpl. lia.
  - reflexivity.
  - left. reflexivity.
  - vm_compute. reflexivity.
Defined.

Lemma Read_ten_fragments_witness :
  let read :=
    Peer.Read (Ring.forward_get_succ Ring.fifteen) Ring.hold_val 31
      (Ring.start Ring.fifteen 1500) in
  let block :=
    match read.1 with
    | inr block => block
    | inl _ => DataBlock.mk [] []
    end in
  exists fragments,
    block = DataBlock.of_fragments fragments /\
    List.length fragments = 10%nat /\
    ascending (map index_ fragments) = true.
Proof.
  cbv zeta.
  apply (Read_ten_fragments Ring.hold_val (Ring.forward_get_succ Ring.fifteen)
           31 (Ring.start Ring.fifteen 1500) _
           (Ring.start Ring.fifteen 1500)).
  vm_compute. reflexivity.
Defined.

(** ** The peer that owns the whole ring *)

(** X28: the range [id_ + 1, id_] that [StartChord] gives a peer covers the
    whole ring: the peer stores every key locally, and is its own successor
    for every key. *)
Theorem StoredLocally_whole_ring forward_get_succ key st :
  Key.in_ring (id_ (Peer.repr st)) ->
  min_key_ (Peer.repr st) = Key.add (id_ (Peer.repr st)) 1 ->
  Peer.StoredLocally key st = true /\
  Peer.GetSuccessor forward_get_succ key st = (inr (Peer.repr st), st).
Proof.
  intros Hid Hmin. unfold Peer.StoredLocally, Peer.GetSuccessor.
  rewrite Hmin, InBetween_whole_ring by exact Hid.
  split; reflexivity.
Qed.

Lemma StoredLocally_whole_ring_witness :
  Peer.StoredLocally 31 (Ring.start [100] 100) = true /\
  Peer.GetSuccessor (Ring.forward_get_succ [100]) 31 (Ring.start [100] 100)
  = (inr (Peer.repr (Ring.start [100] 100)), Ring.start [100] 100).
Proof.
  apply (StoredLocally_whole_ring (Ring.forward_get_succ [100]) 31
           (Ring.start [100] 100)).
  - unfold Key.in_ring, Key.keys_in_ring. simpl. lia.
  - reflexivity.
Defined.
